(** * vee-validate: rule execution, schema validation and field/form state

    A shallow embedding of the validation core of vee-validate:

    - [Validate]    : packages/vee-validate/src/validate.ts
    - [Observer]    : src/components/observer.js (form aggregate flags)
    - [ProviderJs]  : src/components/provider.js (event handlers, race guard)
    - [ProviderTs]  : src/components/Provider.ts (flag bookkeeping)
    - [UseField]    : packages/core/src/useField.ts (useMeta, patch)

    JavaScript values are an inductive type, promises are modelled by the
    way they settle together with the list of capability invocations made
    on the way, JS objects whose key order matters are association lists
    and the process-wide tables are stdpp finite maps. *)

From Stdlib Require Import ZArith Ascii String List Bool Lia.
From stdpp Require Import base option list gmap strings pretty.
Import ListNotations.

Set Warnings "-register-all".

Local Open Scope Z_scope.
Local Open Scope char_scope.
Local Open Scope string_scope.
Local Open Scope list_scope.

(* ================================================================== *)
(** ** JavaScript values                                                *)
(* ================================================================== *)

Module Js.

(** A value as the validation core sees it.  A callable is characterised
    by its [__locatorRef] property: that is the only thing validate.ts
    ever reads from a function it did not get as a rule. *)
Inductive jsval : Type :=
| VUndefined
| VNull
| VBool (b : bool)
| VNum (n : Z)
| VStr (s : string)
| VArr (items : list jsval)
| VObj (entries : list (string * jsval))
| VFun (locatorRef : option string).

(** [!!v] *)
Definition truthy (v : jsval) : bool :=
  match v with
  | VUndefined | VNull => false
  | VBool b => b
  | VNum n => negb (n =? 0)%Z
  | VStr s => negb (String.eqb s EmptyString)
  | VArr _ | VObj _ | VFun _ => true
  end.

(** [!!s] for a string *)
Definition truthy_string (s : string) : bool := negb (String.eqb s EmptyString).

(** [isCallable(v)] *)
Definition isCallable (v : jsval) : bool :=
  match v with VFun _ => true | _ => false end.

(** A JS object with string keys whose enumeration order matters:
    entries in [Object.keys] order. *)
Definition object (V : Type) : Type := list (string * V).

(** [Object.keys(o)] *)
Definition Object_keys {V} (o : object V) : list string := map fst o.

(** [o[k]] : the value of the first entry stored under [k], if any *)
Fixpoint obj_get {V} (o : object V) (k : string) : option V :=
  match o with
  | [] => None
  | (k', v) :: o' => if String.eqb k' k then Some v else obj_get o' k
  end.

(** [o[k] = v] : overwrite in place when the key exists, else append *)
Fixpoint obj_set {V} (o : object V) (k : string) (v : V) : object V :=
  match o with
  | [] => [(k, v)]
  | (k', v') :: o' =>
      if String.eqb k' k then (k', v) :: o' else (k', v') :: obj_set o' k v
  end.

(** A key under which an assignment on an object made by [{}] makes an
    own property: every key but [__proto__], which is the name of an
    accessor of [Object.prototype]. *)
Definition makes_own_property (k : string) : bool := negb (String.eqb k "__proto__").

(** [acc[k] = v] on an object that was made by [{}]: an own property,
    except under the key [__proto__], where the assignment goes to the
    accessor and no own property is made.  (What the accessor does to
    the prototype of [acc] is not recorded: the entries are the own
    properties.) *)
Definition obj_assign {V} (o : object V) (k : string) (v : V) : object V :=
  if makes_own_property k then obj_set o k v else o.

(** Assigning the entries of a list one after the other. *)
Definition assign_all {V} (es : list (string * V)) (acc : object V) : object V :=
  fold_left (fun acc '(k, v) => obj_set acc k v) es acc.

(** What a rejected promise carries.  [name] is absent for thrown values
    that are not errors; [errors], [path] and [inner] are the fields yup
    puts on its ValidationError. *)
Inductive Thrown : Type :=
| MkThrown (name : option string) (message : string)
           (errors : list string) (path : option string)
           (inner : option (list Thrown)).

Definition err_name (e : Thrown) : option string :=
  match e with MkThrown n _ _ _ _ => n end.
Definition err_message (e : Thrown) : string :=
  match e with MkThrown _ m _ _ _ => m end.
Definition err_errors (e : Thrown) : list string :=
  match e with MkThrown _ _ es _ _ => es end.
Definition err_path (e : Thrown) : option string :=
  match e with MkThrown _ _ _ p _ => p end.
Definition err_inner (e : Thrown) : option (list Thrown) :=
  match e with MkThrown _ _ _ _ i => i end.

(** [new Error(message)] *)
Definition new_Error (message : string) : Thrown :=
  MkThrown (Some "Error") message [] None None.

(** [err.name === s] *)
Definition name_is (e : Thrown) (s : string) : bool :=
  match err_name e with
  | Some n => String.eqb n s
  | None => false
  end.

(** How a promise settles. *)
Inductive Settled (A : Type) : Type :=
| Fulfilled (a : A)
| Rejected (e : Thrown).
Arguments Fulfilled {A} a.
Arguments Rejected {A} e.

End Js.
Export Js.

(* ================================================================== *)
(** ** packages/vee-validate/src/validate.ts                            *)
(* ================================================================== *)

Module Validate.

(** Rule parameters: [unknown[] | Record<string, unknown>]. *)
Inductive Params : Type :=
| ParamList (l : list jsval)
| ParamMap (o : object jsval).

(** The cross-field table ([formData], [crossTable], [values]). *)
Abbreviation FormData := (gmap string jsval).

(** [FieldContext] of shared/types: what a rule and the message generator
    receive.  [rule] is absent when the rule is a bare function. *)
Record FieldContext : Type := mkFieldContext {
  ctx_field : string;
  ctx_value : jsval;
  ctx_form : FormData;
  ctx_rule : option (string * Params)
}.

(** A registered rule: [validator(value, params, ctx)].  It is awaited, so
    what matters is how the returned promise settles. *)
Definition ValidationRuleFunction : Type :=
  jsval -> Params -> FieldContext -> Settled jsval.

(** [GenericValidateFunction]: [rules(value, ctx)]. *)
Definition GenericValidateFunction : Type :=
  jsval -> FieldContext -> Settled jsval.

(** [YupValidator]: an object with a [validate(value, {abortEarly})]
    method; the value it resolves with is never read. *)
Record YupValidator (V : Type) : Type := mkYup {
  yup_validate : V -> bool -> Settled unit
}.
Arguments mkYup {V} _.
Arguments yup_validate {V} _ _ _.

(** A rule expression that still has to be normalized. *)
Inductive RawRules : Type :=
| RulesString (s : string)
| RulesObject (o : object jsval).

(** [FieldValidationContext.rules], discriminated the way [_validate]
    probes it: [isYupValidator] first, [isCallable] next, else named
    rules. *)
Inductive RuleExpression : Type :=
| SchemaRule (y : YupValidator jsval)
| FunctionRule (f : GenericValidateFunction)
| NamedRules (r : RawRules).

(** What validate.ts imports from modules that are not part of these
    sources: the rule table behind [resolveRule] (defineRule), the
    configured message generator ([getConfig().generateMessage]),
    [normalizeRules], the body of a locator closure, and [getFromPath]
    (utils).  With them comes what the code leaves to the JS job queue:
    of several promises that reject, which one settles first, given as
    its position among the rejections. *)
Record Collaborators : Type := mkCollaborators {
  RULES : gmap string ValidationRuleFunction;
  generateMessage : option (FieldContext -> string);
  normalizeRules : RawRules -> object Params;
  callLocator : string -> FormData -> jsval;
  getFromPath : FormData -> string -> jsval;
  first_to_settle : list Thrown -> nat
}.

(** Modelled from the spec: defineRule.ts is missing from the sources;
    section 4.1 says [resolve(name)] returns the descriptor stored under
    [name] by the last registration, or nothing. *)
Definition resolveRule (env : Collaborators) (name : string)
  : option ValidationRuleFunction :=
  RULES env !! name.

(** *** Promises with a log of capability invocations *)

Inductive Call : Type :=
| CallRule (name : string) (value : jsval) (params : Params)
| CallFunction (value : jsval)
| CallSchema (abortEarly : bool).

Definition Promise (A : Type) : Type := (list Call * Settled A)%type.

Definition resolve {A} (a : A) : Promise A := ([], Fulfilled a).
Definition throw {A} (e : Thrown) : Promise A := ([], Rejected e).

(** [const x = await m; k x] *)
Definition await {A B} (m : Promise A) (k : A -> Promise B) : Promise B :=
  match m with
  | (log, Fulfilled a) => let '(log', r) := k a in (log ++ log', r)
  | (log, Rejected e) => (log, Rejected e)
  end.

(** [m.catch(handler)] *)
Definition catch {A} (m : Promise A) (handler : Thrown -> Promise A) : Promise A :=
  match m with
  | (log, Fulfilled a) => (log, Fulfilled a)
  | (log, Rejected e) => let '(log', r) := handler e in (log ++ log', r)
  end.

(** Calling a capability: the call is logged, the promise it returns
    settles as the capability says. *)
Definition invoke {A} (c : Call) (s : Settled A) : Promise A := ([c], s).

Definition calls {A} (m : Promise A) : list Call := fst m.
Definition outcome {A} (m : Promise A) : Settled A := snd m.

Notation "'let*' x ':=' m 'in' k" := (await m (fun x => k))
  (at level 10, x name, m at level 100, k at level 200, only parsing).

(** *** The exported types *)

Record ValidationResult : Type := mkResult {
  errors : list string;
  valid : bool
}.

Record ValidationOptions : Type := mkOptions {
  opt_name : option string;
  opt_values : option FormData;
  opt_bails : option bool
}.

Record FieldValidationContext : Type := mkField {
  fvc_name : string;
  fvc_rules : RuleExpression;
  fvc_bails : bool;
  fvc_formData : FormData
}.

Record FormValidationResult : Type := mkFormResult {
  form_valid : bool;
  form_results : object ValidationResult
}.

(** [!xs.length] *)
Definition is_empty_list {A} (xs : list A) : bool :=
  match xs with [] => true | _ :: _ => false end.

(** [s || fallback] on an optional string *)
Definition or_string (s : option string) (fallback : string) : string :=
  match s with
  | Some s' => if truthy_string s' then s' else fallback
  | None => fallback
  end.

(** *** fillTargetValues *)

(** [isLocator]: [isCallable(value) && !!value.__locatorRef] *)
Definition isLocator (value : jsval) : bool :=
  match value with
  | VFun (Some ref) => truthy_string ref
  | _ => false
  end.

(** The [normalize] closure of [fillTargetValues]. *)
Definition normalize (env : Collaborators) (crossTable : FormData) (value : jsval) : jsval :=
  match value with
  | VFun (Some ref) =>
      if truthy_string ref then callLocator env ref crossTable else value
  | _ => value
  end.

(** The map is rebuilt by [acc[param] = normalize(params[param])] on a
    fresh [{}], key by key: an own key [__proto__] of [params] is read
    like the others, but assigning under it makes no own property. *)
Definition fillTargetValues (env : Collaborators) (params : Params) (crossTable : FormData)
  : Params :=
  match params with
  | ParamList l => ParamList (map (normalize env crossTable) l)
  | ParamMap o =>
      ParamMap
        (fold_left
           (fun acc param =>
              obj_assign acc param
                (normalize env crossTable (default VUndefined (obj_get o param))))
           (Object_keys o) [])
  end.

(** *** _generateFieldError *)

Definition _generateFieldError (env : Collaborators) (fieldCtx : FieldContext) : string :=
  match generateMessage env with
  | None => "Field is invalid"
  | Some message => message fieldCtx
  end.

(** *** _test : one rule against the value; resolves with [{error}] *)

Definition _test (env : Collaborators) (field : FieldValidationContext) (value : jsval)
  (rule_name : string) (rule_params : Params) : Promise (option string) :=
  match resolveRule env rule_name with
  | None =>
      throw (new_Error ("No such validator '" +:+ rule_name +:+ "' exists."))
  | Some validator =>
      let params := fillTargetValues env rule_params (fvc_formData field) in
      let ctx := mkFieldContext (fvc_name field) value (fvc_formData field)
                   (Some (rule_name, params)) in
      let* result := invoke (CallRule rule_name value params)
                            (validator value params ctx) in
      match result with
      | VStr s => resolve (Some s)
      | _ => resolve (if truthy result then None else Some (_generateFieldError env ctx))
      end
  end.

(** *** validateFieldWithYup *)

Definition validateFieldWithYup (value : jsval) (validator : YupValidator jsval)
  (opts_bails : option bool) : Promise (list string) :=
  let abortEarly := default true opts_bails in
  catch
    (let* _ := invoke (CallSchema abortEarly) (yup_validate validator value abortEarly) in
     resolve [])
    (fun err =>
       if name_is err "ValidationError" then resolve (err_errors err)
       else throw err).

(** *** _validate *)

(** [if (result.error)]: the error when it is there and truthy. *)
Definition truthy_error (result : option string) : option string :=
  match result with
  | Some error => if truthy_string error then Some error else None
  | None => None
  end.

(** The [for] loop of [_validate] from index [i] on: [rules] are the
    entries of [normalizedContext.rules] still to visit, in
    [Object.keys] order (a JS object stores each key once, so
    [rules[rulesKeys[i]]] is the value of the i-th entry), and [errs] is
    the [errors] array as pushed so far. *)
Fixpoint run_rules (env : Collaborators) (field : FieldValidationContext) (value : jsval)
  (rules : object Params) (errs : list string) : Promise (list string) :=
  match rules with
  | [] => resolve errs
  | (rule, params) :: rest =>
      let* result := _test env field value rule params in
      match truthy_error result with
      | Some error =>
          let errs' := errs ++ [error] in
          if fvc_bails field then resolve errs'
          else run_rules env field value rest errs'
      | None => run_rules env field value rest errs
      end
  end.

Definition _validate (env : Collaborators) (field : FieldValidationContext) (value : jsval)
  : Promise (list string) :=
  match fvc_rules field with
  | SchemaRule y => validateFieldWithYup value y (Some (fvc_bails field))
  | FunctionRule f =>
      let ctx := mkFieldContext (fvc_name field) value (fvc_formData field) None in
      let* result := invoke (CallFunction value) (f value ctx) in
      let isValid := match result with VStr _ => false | _ => truthy result end in
      let message := match result with
                     | VStr s => s
                     | _ => _generateFieldError env ctx
                     end in
      resolve (if isValid then [] else [message])
  | NamedRules raw =>
      run_rules env field value (normalizeRules env raw) []
  end.

(** *** validate *)

(** The [field] object [validate] builds from its arguments. *)
Definition field_context (rules : RuleExpression) (options : ValidationOptions)
  : FieldValidationContext :=
  let shouldBail := opt_bails options in
  mkField (or_string (opt_name options) "{field}") rules
    (default true shouldBail)
    (default ∅ (opt_values options)).

Definition validate (env : Collaborators) (value : jsval) (rules : RuleExpression)
  (options : ValidationOptions) : Promise ValidationResult :=
  let field := field_context rules options in
  let* errs := _validate env field value in
  resolve (mkResult errs (is_empty_list errs)).

(** *** Vocabulary for statements about a run *)

(** The rule [entry], tested on [value], comes back with [verdict]: an
    error the loop records ([Some message], the rule fails), or none (the
    rule passes). *)
Definition rule_reports (env : Collaborators) (field : FieldValidationContext)
  (value : jsval) (entry : string * Params) (verdict : option string) : Prop :=
  exists result,
    outcome (_test env field value (fst entry) (snd entry)) = Fulfilled result
    /\ truthy_error result = verdict.



(** The invocation of the rule [entry] on [value]. *)
Definition call_of (env : Collaborators) (field : FieldValidationContext)
  (value : jsval) (entry : string * Params) : Call :=
  CallRule (fst entry) value (fillTargetValues env (snd entry) (fvc_formData field)).

(** The messages of the rules that failed, in rule order. *)
Definition failures (verdicts : list (option string)) : list string :=
  omap id verdicts.

(** The context [_test] hands to the rule and to the message generator. *)
Definition rule_context (env : Collaborators) (field : FieldValidationContext)
  (value : jsval) (rule_name : string) (rule_params : Params) : FieldContext :=
  mkFieldContext (fvc_name field) value (fvc_formData field)
    (Some (rule_name, fillTargetValues env rule_params (fvc_formData field))).

(** Modelled from the spec: validate.ts has no test for emptiness;
    section 4.4 calls a value empty when it is the empty string, null,
    undefined or an empty array, and says that false is not empty. *)
Definition isEmptyValue (value : jsval) : bool :=
  match value with
  | VUndefined | VNull => true
  | VStr s => String.eqb s EmptyString
  | VArr [] => true
  | _ => false
  end.

(** A rule set makes its field required when one of its names is a
    require rule: [Object.keys(rules).some(RuleContainer.isRequireRule)]
    of Provider.ts, with the registry's predicate as an argument. *)
Definition makes_required (isRequireRule : string -> bool) (rules : object Params) : bool :=
  existsb isRequireRule (Object_keys rules).


(** *** validateYupSchema *)

(** The [reduce] over the aggregated errors: [acc[err.path] = {...}].
    A missing [path] is the property key ["undefined"].  What is assigned
    is always an object, so under the key [__proto__] the assignment
    makes that object the prototype of [acc] instead of an own property:
    the entry kept under [__proto__] is this prototype, which
    [results.__proto__] reads, and [result_paths] lists the own keys.
    The entries stand in the order in which their paths came; paths that
    are array indices, which JS lists first, are not moved. *)
Definition schema_results (errs : list Thrown) : object ValidationResult :=
  fold_left
    (fun acc err =>
       let messages := err_errors err in
       obj_set acc (default "undefined" (err_path err))
         (mkResult messages (is_empty_list messages)))
    errs [].

(** [Object.keys(results)] of a results object built by such
    assignments: its own keys. *)
Definition result_paths (results : object ValidationResult) : list string :=
  List.filter makes_own_property (Object_keys results).

Definition validateYupSchema (schema : YupValidator FormData) (values : FormData)
  : Promise FormValidationResult :=
  let* errs :=
    catch
      (let* _ := invoke (CallSchema false) (yup_validate schema values false) in
       resolve [])
      (fun err =>
         if negb (name_is err "ValidationError") then throw err
         else resolve (default [] (err_inner err))) in
  resolve (mkFormResult (is_empty_list errs) (schema_results errs)).

(** *** validateObjectSchema *)

Record ObjectSchemaOptions : Type := mkSchemaOptions {
  so_names : option (gmap string string);
  so_bails : option bool
}.

(** [opts?.names?.[path] || path] *)
Definition field_label (opts : option ObjectSchemaOptions) (path : string) : string :=
  or_string (names ← (opts ≫= so_names); names !! path) path.

(** [opts?.bails ?? true] *)
Definition schema_bails (opts : option ObjectSchemaOptions) : bool :=
  default true (opts ≫= so_bails).

(** One element of [validations]: the async arrow mapped over [paths]. *)
Definition validate_path (env : Collaborators) (values : FormData)
  (opts : option ObjectSchemaOptions) (path : string) (rules : RuleExpression)
  : Promise (string * ValidationResult) :=
  let* fieldResult :=
    validate env (getFromPath env values path) rules
      (mkOptions (Some (field_label opts path)) (Some values)
         (Some (schema_bails opts))) in
  resolve (path, fieldResult).

(** The rejections, and the values, of promises that have settled, in
    list order. *)
Definition rejections {A} (ps : list (Promise A)) : list Thrown :=
  omap (fun p => match outcome p with
                 | Rejected e => Some e
                 | Fulfilled _ => None
                 end) ps.

Definition fulfilments {A} (ps : list (Promise A)) : list A :=
  omap (fun p => match outcome p with
                 | Fulfilled a => Some a
                 | Rejected _ => None
                 end) ps.

(** [Promise.all(ps)].  The promises were all started when the list was
    made and each runs to its end whatever the others do.  When all
    fulfil, the values in list order; when some reject, the rejection
    that settles first, which [first_to_settle] picks among them.  The
    log has the invocations of every promise, promise by promise: how
    the runs interleave is not recorded. *)
Definition Promise_all {A} (first_to_settle : list Thrown -> nat) (ps : list (Promise A))
  : Promise (list A) :=
  (concat (map calls ps),
   match rejections ps with
   | [] => Fulfilled (fulfilments ps)
   | e :: es => Rejected (nth (first_to_settle (e :: es)) (e :: es) e)
   end).

(** The [reduce] of [validateObjectSchema]: per-path results, and
    [isAllValid] cleared by every invalid one.  As in [schema_results],
    an entry under [__proto__] is the prototype the assignment sets. *)
Definition collect_results (results : list (string * ValidationResult))
  : bool * object ValidationResult :=
  fold_left
    (fun '(isAllValid, acc) '(path, r) =>
       (if negb (valid r) then false else isAllValid,
        obj_set acc path (mkResult (errors r) (valid r))))
    results (true, []).

(** [schema] is visited by entry: [keysOf(schema)] lists each key once and
    [schema[path]] is the value stored under it. *)
Definition validateObjectSchema (env : Collaborators) (schema : object RuleExpression)
  (values : FormData) (opts : option ObjectSchemaOptions)
  : Promise FormValidationResult :=
  let validations :=
    map (fun '(path, rules) => validate_path env values opts path rules) schema in
  let* results := Promise_all (first_to_settle env) validations in
  let '(isAllValid, acc) := collect_results results in
  resolve (mkFormResult isAllValid acc).

End Validate.

(* ================================================================== *)
(** ** Field flags                                                     *)
(* ================================================================== *)

Module Flags.

(** A flags object: [Record<string, boolean>].  Reading a key that was
    never written gives [undefined]. *)
Abbreviation Flags := (gmap string bool).

(** [!!flags[name]] *)
Definition flag (flags : Flags) (name : string) : bool :=
  default false (flags !! name).

(** [Object.keys(partial).forEach(k => { this.flags[k] = partial[k]; })] *)
Definition setFlags (partial : object bool) (flags : Flags) : Flags :=
  fold_left (fun acc '(k, v) => <[k := v]> acc) partial flags.

(** Modelled from the spec: [createFlags] (utils) is missing from the
    sources; section 4.6 gives the initial state as all flags false except
    untouched and pristine, and section 3 lists the flags. *)
Definition createFlags : object bool :=
  [("untouched", true); ("touched", false); ("dirty", false);
   ("pristine", true); ("valid", false); ("invalid", false);
   ("validated", false); ("pending", false); ("required", false);
   ("changed", false); ("passed", false); ("failed", false)].

(** The invariant of section 3 on a flags object. *)
Definition derived_ok (flags : Flags) : Prop :=
  flag flags "passed" = flag flags "valid" && flag flags "validated"
  ∧ flag flags "failed" = flag flags "invalid" && flag flags "validated".

(** What a validation run resolves with in the component layer:
    [{ valid, errors }]. *)
Record Result : Type := mkResult {
  errors : list string;
  valid : bool
}.

(** [!xs.length] *)
Definition no_errors (xs : list string) : bool :=
  match xs with [] => true | _ :: _ => false end.

End Flags.

(* ================================================================== *)
(** ** src/components/observer.js                                       *)
(* ================================================================== *)

Module Observer.
Import Flags.

Inductive Strategy : Type := every | some.

(** [flagMergingStrategy], in key order. *)
Definition flagMergingStrategy : object Strategy :=
  [("pristine", every); ("dirty", some); ("touched", some);
   ("untouched", every); ("valid", every); ("invalid", some);
   ("pending", some); ("validated", every)].

(** What the observer reads from a provider. *)
Record Provider : Type := mkProvider {
  vid : string;
  flags : Flags;
  messages : list string
}.

(** A flag of the aggregate: [undefined] or a boolean.  The first
    provider's flag is copied as it is, so [undefined] can be stored. *)
Definition truthy_flag (v : option bool) : bool := default false v.

(** [[lhs, rhs][stratName](f => f)];  the call is a TypeError when the
    flag has no strategy, which [None] stands for. *)
Definition mergeFlags (lhs rhs : option bool) (strategy : string) : option bool :=
  match obj_get flagMergingStrategy strategy with
  | Some every => Some (forallb truthy_flag [lhs; rhs])
  | Some some => Some (existsb truthy_flag [lhs; rhs])
  | None => None
  end.

(** The slot context without its two closures ([validate], [reset]):
    the [errors] object and the flags written onto the context itself. *)
Record Ctx : Type := mkCtx {
  ctx_errors : gmap string (list string);
  ctx_flags : gmap string (option bool)
}.

(** The body of [Object.keys(flagMergingStrategy).forEach(flag => ...)]. *)
Definition merge_flag (provider : Provider) (acc : gmap string (option bool))
  (flag_name : string) : gmap string (option bool) :=
  match acc !! flag_name with
  | None => <[flag_name := flags provider !! flag_name]> acc
  | Some lhs =>
      match mergeFlags lhs (flags provider !! flag_name) flag_name with
      | Some merged => <[flag_name := Some merged]> acc
      | None => acc
      end
  end.

(** The reducer of [computed.ctx]. *)
Definition merge_provider (acc : Ctx) (provider : Provider) : Ctx :=
  mkCtx
    (<[vid provider := messages provider]> (ctx_errors acc))
    (fold_left (merge_flag provider) (Object_keys flagMergingStrategy) (ctx_flags acc)).

(** [values(this.refs)] *)
Definition values (refs : object Provider) : list Provider := map snd refs.

(** [computed.ctx] *)
Definition ctx (refs : object Provider) : Ctx :=
  fold_left merge_provider (values refs) (mkCtx ∅ ∅).

(** [!!ctx[flag]] : the flag holds for the form. *)
Definition form_flag (c : Ctx) (name : string) : bool :=
  match ctx_flags c !! name with
  | Some v => truthy_flag v
  | None => false
  end.

(** [subscribe(provider)] : [Object.assign({}, this.refs, {[vid]: provider})].
    The entries stand in the order in which their vids came; vids that
    are array indices, which JS lists first, are not moved: the
    aggregate does not depend on the order. *)
Definition subscribe (refs : object Provider) (provider : Provider) : object Provider :=
  obj_set refs (vid provider) provider.

(** [unsubscribe({vid})] : [this.$delete(this.refs, vid)] *)
Definition unsubscribe (refs : object Provider) (v : string) : object Provider :=
  List.filter (fun kv => negb (String.eqb (fst kv) v)) refs.

End Observer.

(* ================================================================== *)
(** ** src/components/provider.js                                       *)
(* ================================================================== *)

Module ProviderJs.
Import Flags.

(** The component instance: its data, the [immediate] prop and the
    private fields the handlers write.  [_waiting] holds a promise, which
    is identified by the number of the run that made it. *)
Record Provider : Type := mkProvider {
  messages : list string;
  value : jsval;
  initialized : bool;
  initialValue : jsval;
  flags : Flags;
  immediate : bool;
  _waiting : option nat;
  _eventEmitted : bool;
  _needsValidation : bool
}.

(** A [then] callback registered on the promise of a validation run. *)
Inductive Callback : Type :=
| PendingOff                 (* validateSilent: setFlags({ pending: false }) *)
| ApplyResult                (* validate: this.applyResult(result) *)
| ApplyIfWaiting (p : nat)   (* onValidate: the guarded applyResult *)
| SilentHandler.             (* onRenderUpdate: setFlags({ valid, invalid }) *)

(** The provider together with the runs of [$validator.verify] that have
    not resolved yet, each with its chain of callbacks. *)
Record World : Type := mkWorld {
  field : Provider;
  runs : gmap nat (list Callback);
  fresh : nat
}.

Inductive Event : Type :=
| OnInput (e : jsval)
| OnBlur
| OnValidate
| CallValidate (arg : option jsval)
| CallValidateSilent
| CallReset
| RenderUpdate (model_value : jsval)
| Resolve (p : nat) (result : Result).

Definition with_flags (c : Provider) (f : Flags) : Provider :=
  mkProvider (messages c) (value c) (initialized c) (initialValue c) f
    (immediate c) (_waiting c) (_eventEmitted c) (_needsValidation c).

Definition with_waiting (c : Provider) (w : option nat) : Provider :=
  mkProvider (messages c) (value c) (initialized c) (initialValue c) (flags c)
    (immediate c) w (_eventEmitted c) (_needsValidation c).

Definition a_new_provider (immediate_prop : bool) : Provider :=
  mkProvider [] VUndefined false VUndefined (setFlags createFlags ∅)
    immediate_prop None false false.

Definition a_new_world (immediate_prop : bool) : World :=
  mkWorld (a_new_provider immediate_prop) ∅ 0.

Section Methods.

(** [a === b].  Objects compare by reference, which [jsval] does not
    record, so the comparison is left open. *)
Context (strict_equal : jsval -> jsval -> bool).

(** [methods.setFlags] *)
Definition set_flags (partial : object bool) (c : Provider) : Provider :=
  with_flags c (setFlags partial (flags c)).

(** [methods.syncValue]; the event's value is its payload. *)
Definition syncValue (e : jsval) (c : Provider) : Provider :=
  let c' := mkProvider (messages c) e (initialized c) (initialValue c) (flags c)
              (immediate c) (_waiting c) (_eventEmitted c) (_needsValidation c) in
  with_flags c' (<["changed" := strict_equal (initialValue c') e]> (flags c')).

(** [methods.reset] *)
Definition reset (c : Provider) : Provider :=
  set_flags createFlags
    (mkProvider [] (value c) (initialized c) (value c) (flags c)
       (immediate c) None (_eventEmitted c) (_needsValidation c)).

(** [methods.applyResult] *)
Definition applyResult (result : Result) (c : Provider) : Provider :=
  let errs := errors result in
  let c' := mkProvider errs (value c) (initialized c) (initialValue c) (flags c)
              (immediate c) (_waiting c) (_eventEmitted c) (_needsValidation c) in
  set_flags
    [("valid", no_errors errs);
     ("changed", negb (strict_equal (value c') (initialValue c')));
     ("invalid", negb (no_errors errs));
     ("validated", true)] c'.

(** [silentHandler] of [onRenderUpdate] *)
Definition silentHandler (result : Result) (c : Provider) : Provider :=
  set_flags [("valid", valid result); ("invalid", negb (valid result))] c.

(** Running one callback when its run resolves with [result]. *)
Definition run_callback (result : Result) (c : Provider) (cb : Callback) : Provider :=
  match cb with
  | PendingOff => set_flags [("pending", false)] c
  | ApplyResult => applyResult result c
  | ApplyIfWaiting p =>
      match _waiting c with
      | Some q => if Nat.eqb p q then with_waiting (applyResult result c) None else c
      | None => c
      end
  | SilentHandler => silentHandler result c
  end.

(** [promise.then(cb)] on the promise of run [p] *)
Definition and_then (p : nat) (cb : Callback) (w : World) : World :=
  mkWorld (field w) (alter (fun cbs => cbs ++ [cb]) p (runs w)) (fresh w).

(** [methods.validateSilent]: the flag, the call of [$validator.verify]
    and the [then] on what it returns. *)
Definition validateSilent (w : World) : World * nat :=
  let p := fresh w in
  (mkWorld (set_flags [("pending", true)] (field w))
     (<[p := [PendingOff]]> (runs w)) (S p), p).

(** [methods.validate] *)
Definition validate (arg : option jsval) (w : World) : World * nat :=
  let w1 :=
    match arg with
    | Some a => if truthy a then mkWorld (syncValue a (field w)) (runs w) (fresh w) else w
    | None => w
    end in
  let '(w2, p) := validateSilent w1 in
  (and_then p ApplyResult w2, p).

(** The function [createCommonHandlers] hands to [debounce]. *)
Definition onValidate (w : World) : World :=
  let '(w1, pendingPromise) := validate None w in
  let c := field w1 in
  let c' := mkProvider (messages c) (value c) (initialized c) (initialValue c) (flags c)
              (immediate c) (Some pendingPromise) true (_needsValidation c) in
  and_then pendingPromise (ApplyIfWaiting pendingPromise)
    (mkWorld c' (runs w1) (fresh w1)).

(** [onInput] *)
Definition onInput (e : jsval) (c : Provider) : Provider :=
  set_flags [("dirty", true); ("pristine", false)] (syncValue e c).

(** [onBlur] *)
Definition onBlur (c : Provider) : Provider :=
  set_flags [("touched", true); ("untouched", false)] c.

(** [onRenderUpdate(model)] *)
Definition onRenderUpdate (model_value : jsval) (w : World) : World :=
  let c := field w in
  let validateNow :=
    negb (strict_equal (value c) model_value) || _needsValidation c in
  let initialValue' := if initialized c then initialValue c else model_value in
  let validateNow' :=
    if negb (initialized c) && strict_equal model_value VUndefined then true
    else validateNow in
  let c1 := mkProvider (messages c) (value c) (initialized c) initialValue' (flags c)
              (immediate c) (_waiting c) false false in
  if negb validateNow' then mkWorld c1 (runs w) (fresh w)
  else
    let c2 := mkProvider (messages c1) model_value (initialized c1) (initialValue c1)
                (flags c1) (immediate c1) (_waiting c1) (_eventEmitted c1)
                (_needsValidation c1) in
    let '(w3, p) := validateSilent (mkWorld c2 (runs w) (fresh w)) in
    and_then p
      (if immediate (field w3) || flag (flags (field w3)) "validated"
       then ApplyResult else SilentHandler) w3.

(** The verify promise of run [p] resolves: its callbacks run in the
    order they were chained. *)
Definition resolve_run (p : nat) (result : Result) (w : World) : World :=
  match runs w !! p with
  | Some cbs =>
      mkWorld (fold_left (run_callback result) cbs (field w))
        (delete p (runs w)) (fresh w)
  | None => w
  end.

Definition step (w : World) (ev : Event) : World :=
  match ev with
  | OnInput e => mkWorld (onInput e (field w)) (runs w) (fresh w)
  | OnBlur => mkWorld (onBlur (field w)) (runs w) (fresh w)
  | OnValidate => onValidate w
  | CallValidate arg => fst (validate arg w)
  | CallValidateSilent => fst (validateSilent w)
  | CallReset => mkWorld (reset (field w)) (runs w) (fresh w)
  | RenderUpdate v => onRenderUpdate v w
  | Resolve p result => resolve_run p result w
  end.

Definition run_events (evs : list Event) (w : World) : World :=
  fold_left step evs w.

End Methods.

End ProviderJs.

(* ================================================================== *)
(** ** src/components/Provider.ts                                       *)
(* ================================================================== *)

Module ProviderTs.
Import Flags.

(** The data of the component, and the computed [isRequired], which
    depends on the rule table only. *)
Record Provider : Type := mkProvider {
  errors : list string;
  value : jsval;
  initialized : bool;
  initialValue : jsval;
  flags : Flags;
  failedRules : object string;
  isRequired : bool
}.

(** What [applyResult] destructures: [{ errors, failedRules }]. *)
Record Applied : Type := mkApplied {
  applied_errors : list string;
  applied_failedRules : option (object string)
}.

(** What the awaited [validate] of a run resolves with. *)
Record RunResult : Type := mkRunResult {
  run_valid : bool;
  run_errors : list string;
  run_failedRules : option (object string)
}.

(** Who awaits a run of [validateSilent]. *)
Inductive Awaiter : Type :=
| ByValidate      (* methods.validate: applyResult follows *)
| BySilent.       (* validateSilent called on its own, or by reset *)

Record World : Type := mkWorld {
  field : Provider;
  runs : gmap nat Awaiter;
  fresh : nat
}.

Inductive Event : Type :=
| CallSyncValue (v : jsval)
| CallReset
| CallValidate (args : list jsval)
| CallValidateSilent
| CallSetErrors (errs : list string)
| Resolve (p : nat) (result : RunResult).

Definition with_flags (c : Provider) (f : Flags) : Provider :=
  mkProvider (errors c) (value c) (initialized c) (initialValue c) f
    (failedRules c) (isRequired c).

Definition a_new_provider (required : bool) : Provider :=
  mkProvider [] VUndefined false VUndefined (setFlags createFlags ∅) [] required.

Definition a_new_world (required : bool) : World :=
  mkWorld (a_new_provider required) ∅ 0.

Section Methods.

(** [a !== b] is [negb (strict_equal a b)]; see [ProviderJs]. *)
Context (strict_equal : jsval -> jsval -> bool).

(** [methods.setFlags] *)
Definition set_flags (partial : object bool) (c : Provider) : Provider :=
  with_flags c (setFlags partial (flags c)).

(** [methods.syncValue]; [normalizeEventValue] (utils) takes the value out
    of an event, here the payload is the value. *)
Definition syncValue (v : jsval) (c : Provider) : Provider :=
  let c' := mkProvider (errors c) v (initialized c) (initialValue c) (flags c)
              (failedRules c) (isRequired c) in
  with_flags c' (<["changed" := negb (strict_equal (initialValue c') v)]> (flags c')).

(** [methods.applyResult] *)
Definition applyResult (r : Applied) (c : Provider) : Provider :=
  let errs := applied_errors r in
  let c' := mkProvider errs (value c) (initialized c) (initialValue c) (flags c)
              (default [] (applied_failedRules r)) (isRequired c) in
  set_flags
    [("valid", no_errors errs);
     ("passed", no_errors errs);
     ("invalid", negb (no_errors errs));
     ("failed", negb (no_errors errs));
     ("validated", true);
     ("changed", negb (strict_equal (value c') (initialValue c')))] c'.

(** [methods.setErrors] *)
Definition setErrors (errs : list string) (c : Provider) : Provider :=
  applyResult (mkApplied errs (Some [])) c.

(** [methods.validateSilent] up to its [await]. *)
Definition validateSilent_start (by_whom : Awaiter) (w : World) : World :=
  mkWorld (set_flags [("pending", true)] (field w))
    (<[fresh w := by_whom]> (runs w)) (S (fresh w)).

(** [methods.validateSilent] after its [await]. *)
Definition validateSilent_finish (result : RunResult) (c : Provider) : Provider :=
  set_flags
    [("pending", false);
     ("valid", run_valid result);
     ("invalid", negb (run_valid result))] c.

(** [methods.reset] *)
Definition reset (w : World) : World :=
  let c := field w in
  let c1 := mkProvider [] (value c) (initialized c) (value c) (flags c)
              (failedRules c) (isRequired c) in
  let flags' := obj_set createFlags "required" (isRequired c1) in
  validateSilent_start BySilent
    (mkWorld (set_flags flags' c1) (runs w) (fresh w)).

(** [methods.validate] up to its [await]. *)
Definition validate_start (args : list jsval) (w : World) : World :=
  let w1 :=
    match args with
    | a :: _ => mkWorld (syncValue a (field w)) (runs w) (fresh w)
    | [] => w
    end in
  validateSilent_start ByValidate w1.

(** The awaited [validate] of run [p] resolves: [validateSilent]
    finishes, and [methods.validate], when it is the one waiting, applies
    the result. *)
Definition resolve_run (p : nat) (result : RunResult) (w : World) : World :=
  match runs w !! p with
  | Some by_whom =>
      let c1 := validateSilent_finish result (field w) in
      let c2 :=
        match by_whom with
        | ByValidate =>
            applyResult (mkApplied (run_errors result) (run_failedRules result)) c1
        | BySilent => c1
        end in
      mkWorld c2 (delete p (runs w)) (fresh w)
  | None => w
  end.

Definition step (w : World) (ev : Event) : World :=
  match ev with
  | CallSyncValue v => mkWorld (syncValue v (field w)) (runs w) (fresh w)
  | CallReset => reset w
  | CallValidate args => validate_start args w
  | CallValidateSilent => validateSilent_start BySilent w
  | CallSetErrors errs => mkWorld (setErrors errs (field w)) (runs w) (fresh w)
  | Resolve p result => resolve_run p result w
  end.

Definition run_events (evs : list Event) (w : World) : World :=
  fold_left step evs w.

End Methods.

End ProviderTs.

(* ================================================================== *)
(** ** packages/core/src/useField.ts                                    *)
(* ================================================================== *)

Module UseField.
Import Flags.

(** [initialMeta()] of [useMeta], in key order. *)
Definition initialMeta : object bool :=
  [("untouched", true); ("touched", false); ("dirty", false);
   ("pristine", true); ("valid", false); ("invalid", false);
   ("validated", false); ("pending", false); ("changed", false);
   ("passed", false); ("failed", false)].

(** The reactive state of one field. *)
Record Field : Type := mkField {
  errors : list string;
  meta : Flags;
  value : jsval;
  initialValue : jsval
}.

(** Who made a run of [runValidation]. *)
Inductive Origin : Type :=
| WithMutation              (* runValidationWithMutation: then(patch) *)
| OnMounted (immediate : bool).

Record World : Type := mkWorld {
  field : Field;
  runs : gmap nat Origin;
  fresh : nat;
  validates_by_schema : bool   (* form && form.validateSchema *)
}.

(** What happens to a field: its handlers are called, a validation run
    resolves, or the effect of [useMeta] runs.  [watchEffect] runs the
    effect once when it is set up and queues it afterwards, so between a
    handler and the run of the effect other handlers may come. *)
Inductive Event : Type :=
| HandleBlur
| HandleInput
| Mounted (immediate : bool)
| Validate
| Reset
| Resolve (p : nat) (result : Result)
| EffectRuns.

Definition with_meta (f : Field) (m : Flags) : Field :=
  mkField (errors f) m (value f) (initialValue f).

(** The effect of [useMeta]: [meta.passed = meta.valid && meta.validated]
    and the same for [failed]. *)
Definition derive (m : Flags) : Flags :=
  <["failed" := flag m "invalid" && flag m "validated"]>
    (<["passed" := flag m "valid" && flag m "validated"]> m).

(** [useMeta]: the reactive object, after the first run of the effect,
    which [watchEffect] makes at once. *)
Definition useMeta : Flags := derive (setFlags initialMeta ∅).

(** [reset] of [useMeta]: every key takes its default, [passed] and
    [failed] apart.  [meta] has the keys of [initialMeta] throughout. *)
Definition resetFlags (m : Flags) : Flags :=
  fold_left
    (fun acc '(key, dflt) =>
       if String.eqb key "passed" || String.eqb key "failed" then acc
       else <[key := dflt]> acc)
    initialMeta m.

Section Handlers.

Context (strict_equal : jsval -> jsval -> bool).

(** [handleBlur] *)
Definition handleBlur (f : Field) : Field :=
  with_meta f (<["untouched" := false]> (<["touched" := true]> (meta f))).

(** [handleInput] *)
Definition handleInput (f : Field) : Field :=
  with_meta f (<["pristine" := false]> (<["dirty" := true]> (meta f))).

(** [patch(result)] *)
Definition patch (result : Result) (f : Field) : Field :=
  let errs := Flags.errors result in
  mkField errs
    (<["validated" := true]>
       (<["invalid" := negb (no_errors errs)]>
          (<["valid" := no_errors errs]>
             (<["changed" := negb (strict_equal (initialValue f) (value f))]> (meta f)))))
    (value f) (initialValue f).

(** [reset] of [useValidationState] *)
Definition reset (f : Field) : Field :=
  mkField [] (resetFlags (meta f)) (value f) (initialValue f).

(** [runValidation] up to its [await] *)
Definition runValidation_start (origin : Origin) (w : World) : World :=
  mkWorld (with_meta (field w) (<["pending" := true]> (meta (field w))))
    (<[fresh w := origin]> (runs w)) (S (fresh w)) (validates_by_schema w).

(** [runValidation] after its [await]: with no schema on the form the
    flags are written from the result, else only [pending] is. *)
Definition runValidation_finish (by_schema : bool) (result : Result) (f : Field) : Field :=
  if by_schema then with_meta f (<["pending" := false]> (meta f))
  else
    let errs := Flags.errors result in
    with_meta f
      (<["pending" := false]>
         (<["invalid" := negb (no_errors errs)]>
            (<["valid" := no_errors errs]> (meta f)))).

(** What is chained on the promise of a run. *)
Definition continue (origin : Origin) (result : Result) (f : Field) : Field :=
  match origin with
  | WithMutation => patch result f
  | OnMounted immediate => if immediate then patch result f else f
  end.

(** The queued effect of [useMeta] runs. *)
Definition flush (w : World) : World :=
  mkWorld (with_meta (field w) (derive (meta (field w))))
    (runs w) (fresh w) (validates_by_schema w).

Definition on_field (g : Field -> Field) (w : World) : World :=
  mkWorld (g (field w)) (runs w) (fresh w) (validates_by_schema w).

Definition step (w : World) (ev : Event) : World :=
  match ev with
  | HandleBlur => on_field handleBlur w
  | HandleInput => on_field handleInput w
  | Mounted immediate => runValidation_start (OnMounted immediate) w
  | Validate => runValidation_start WithMutation w
  | Reset => on_field reset w
  | Resolve p result =>
      match runs w !! p with
      | Some origin =>
          mkWorld
            (continue origin result
               (runValidation_finish (validates_by_schema w) result (field w)))
            (delete p (runs w)) (fresh w) (validates_by_schema w)
      | None => w
      end
  | EffectRuns => flush w
  end.

Definition run_events (evs : list Event) (w : World) : World :=
  fold_left step evs w.

End Handlers.

Definition a_new_world (initial : jsval) (by_schema : bool) : World :=
  mkWorld (mkField [] useMeta initial initial) ∅ 0 by_schema.

End UseField.

(* ================================================================== *)
(** ** A concrete setting: rules, normalizer, locators                 *)
(* ================================================================== *)

Module Examples.
Import Validate.

(** [s.split(sep)] *)
Fixpoint split_on (sep : ascii) (s : string) : list string :=
  match s with
  | EmptyString => [EmptyString]
  | String c s' =>
      if Ascii.eqb c sep then EmptyString :: split_on sep s'
      else
        match split_on sep s' with
        | [] => [String c EmptyString]
        | w :: ws => String c w :: ws
        end
  end.

(** The text before the first [sep], and the text after it if there is
    one. *)
Fixpoint cut_at (sep : ascii) (s : string) : string * option string :=
  match s with
  | EmptyString => (EmptyString, None)
  | String c s' =>
      if Ascii.eqb c sep then (EmptyString, Some s')
      else let '(a, b) := cut_at sep s' in (String c a, b)
  end.

(** A parameter of a string expression: [@name] is a locator of the field
    [name], anything else stays the string it is. *)
Definition parse_param (p : string) : jsval :=
  match p with
  | String "@"%char name => VFun (Some name)
  | _ => VStr p
  end.

(** One segment [ruleName] or [ruleName:param1,param2,...]. *)
Definition parse_rule (segment : string) : string * Params :=
  match cut_at ":"%char segment with
  | (name, Some ps) => (name, ParamList (map parse_param (split_on ","%char ps)))
  | (name, None) => (name, ParamList [])
  end.

(** Modelled from the spec: section 4.2 (b) has a mapping from rule name
    to a parameter value, array or object, where [false] and [undefined]
    mean that the rule is not applied; [true], which carries no
    parameter, applies the rule with none. *)
Definition normalizeParams (v : jsval) : option Params :=
  match v with
  | VBool false | VUndefined => None
  | VBool true => Some (ParamList [])
  | VArr l => Some (ParamList l)
  | VObj ps => Some (ParamMap ps)
  | _ => Some (ParamList [v])
  end.

(** Modelled from the spec: [normalizeRules] (utils) is missing from the
    sources; section 4.2 has rules separated by a bar, parameters after a
    colon and split on commas, a leading at-sign marking a locator, no
    casting, declaration order kept, and a mapping taken key by key, a
    rule whose value is false or undefined not being applied. *)
Definition normalizeRules_model (raw : RawRules) : object Params :=
  match raw with
  | RulesString s =>
      assign_all
        (map parse_rule
           (List.filter (fun seg => truthy_string seg) (split_on "|"%char s)))
        []
  | RulesObject o =>
      omap (fun '(name, v) => params ← normalizeParams v; Some (name, params)) o
  end.

(** Modelled from the spec: the closure of a locator (utils) is missing
    from the sources; section 4.3 has it look the field up in the table
    and fall back to the raw name. *)
Definition callLocator_model (ref : string) (crossTable : FormData) : jsval :=
  default (VStr ref) (crossTable !! ref).

(** [getFromPath] on a path that is a plain key. *)
Definition getFromPath_flat (values : FormData) (path : string) : jsval :=
  default VUndefined (values !! path).

(** [Number(s)] on a string of decimal digits. *)
Fixpoint decimal (acc : nat) (s : string) : nat :=
  match s with
  | EmptyString => acc
  | String c s' => decimal (10 * acc + (nat_of_ascii c - 48)) s'
  end.

(** The rule of packages/core/tests/Form.spec.ts: a message for a falsy
    value. *)
Definition required : ValidationRuleFunction :=
  fun value _ _ =>
    Fulfilled (if truthy value then VBool true else VStr "This field is required").

(** A minimum length for strings; every other value is refused.  As in
    packages/rules/tests/min.spec.ts, the empty string, null and
    undefined are too short. *)
Definition min : ValidationRuleFunction :=
  fun value params _ =>
    Fulfilled
      (VBool
         match value, params with
         | VStr s, ParamList (VStr n :: _) => Nat.leb (decimal 0 n) (String.length s)
         | VStr s, ParamList (VNum n :: _) => (n <=? Z.of_nat (String.length s))%Z
         | _, _ => false
         end).

(** A rule that accepts exactly the values equal to the string in its
    first parameter. *)
Definition equals : ValidationRuleFunction :=
  fun value params _ =>
    Fulfilled
      (VBool
         match value, params with
         | VStr s, ParamList (VStr t :: _) => String.eqb s t
         | _, _ => false
         end).

(** A rule whose promise rejects. *)
Definition broken : ValidationRuleFunction :=
  fun _ _ _ => Rejected (new_Error "rule crashed").

Definition rules_table : gmap string ValidationRuleFunction :=
  list_to_map [("required", required); ("min", min); ("is", equals); ("broken", broken)].

(** A job queue on which validations settle in the order of the list. *)
Definition first_in_order (rejected : list Thrown) : nat := 0.

(** No message generator configured. *)
Definition plain : Collaborators :=
  mkCollaborators rules_table None normalizeRules_model callLocator_model
    getFromPath_flat first_in_order.

(** A configured generator that produces the empty string. *)
Definition silent : Collaborators :=
  mkCollaborators rules_table (Some (fun _ => EmptyString)) normalizeRules_model
    callLocator_model getFromPath_flat first_in_order.

(** A configured generator that names the field. *)
Definition verbose : Collaborators :=
  mkCollaborators rules_table (Some (fun c => ctx_field c +:+ " is not valid"))
    normalizeRules_model callLocator_model getFromPath_flat first_in_order.

Definition no_options : ValidationOptions := mkOptions None None None.

(** A schema validator that reports two fields when it collects, and
    the first one only when it aborts early. *)
Definition two_fields_schema : YupValidator FormData :=
  mkYup (fun _ abortEarly =>
    let e1 := MkThrown (Some "ValidationError") "email is required"
                ["email is required"] (Some "email") (Some []) in
    let e2 := MkThrown (Some "ValidationError") "password is required"
                ["password is required"] (Some "password") (Some []) in
    if abortEarly then Rejected e1
    else Rejected (MkThrown (Some "ValidationError") "2 errors occurred"
                     ["email is required"; "password is required"] None
                     (Some [e1; e2]))).

(** A duck-typed schema validator whose rejection carries [errors] and no
    [inner]. *)
Definition flat_schema : YupValidator FormData :=
  mkYup (fun _ _ =>
    Rejected (MkThrown (Some "ValidationError") "name is required"
                ["name is required"] None None)).

(** A schema validator that breaks. *)
Definition crashing_schema {V} : YupValidator V :=
  mkYup (fun _ _ => Rejected (MkThrown (Some "TypeError") "x is not a function" [] None None)).

(** A field-level schema validator that rejects every value. *)
Definition strict_schema : YupValidator jsval :=
  mkYup (fun _ abortEarly =>
    Rejected (MkThrown (Some "ValidationError") "too short"
                (if abortEarly then ["too short"] else ["too short"; "not an email"])
                None None)).

(** [===] on primitive values. *)
Definition primitive_equal (a b : jsval) : bool :=
  match a, b with
  | VUndefined, VUndefined | VNull, VNull => true
  | VBool x, VBool y => Bool.eqb x y
  | VNum x, VNum y => (x =? y)%Z
  | VStr x, VStr y => String.eqb x y
  | _, _ => false
  end.

(** Two registered fields: one valid and validated, one invalid and not
    validated yet. *)
Definition field_a : Observer.Provider :=
  Observer.mkProvider "a"
    (Flags.setFlags [("valid", true); ("validated", true)]
       (Flags.setFlags Flags.createFlags ∅))
    [].

Definition field_b : Observer.Provider :=
  Observer.mkProvider "b"
    (Flags.setFlags [("invalid", true); ("dirty", true); ("pristine", false)]
       (Flags.setFlags Flags.createFlags ∅))
    ["b is required"].

Definition two_fields : object Observer.Provider :=
  Observer.subscribe (Observer.subscribe [] field_a) field_b.

(** Two validation events in a row on a provider of provider.js; the
    second run resolves first and finds nothing wrong, the first run
    resolves after it with an error. *)
Definition overlapping_runs : list ProviderJs.Event :=
  [ProviderJs.OnInput (VStr "a");
   ProviderJs.OnValidate;
   ProviderJs.OnInput (VStr "ab");
   ProviderJs.OnValidate;
   ProviderJs.Resolve 1 (Flags.mkResult [] true);
   ProviderJs.Resolve 0 (Flags.mkResult ["too short"] false)].

(** On a provider of Provider.ts: errors are set by hand, then a silent
    validation finds the value valid. *)
Definition silent_after_errors : list ProviderTs.Event :=
  [ProviderTs.CallSetErrors ["taken"];
   ProviderTs.CallValidateSilent;
   ProviderTs.Resolve 0 (ProviderTs.mkRunResult true [] None)].

(** On a provider of Provider.ts: a reset, whose silent validation is
    slow, then a validation that fails, then the reset's validation
    resolving with the result for the value it saw. *)
Definition reset_overtaken : list ProviderTs.Event :=
  [ProviderTs.CallSyncValue (VStr "abc");
   ProviderTs.CallReset;
   ProviderTs.CallValidate [VStr "a"];
   ProviderTs.Resolve 1 (ProviderTs.mkRunResult false ["too short"] None);
   ProviderTs.Resolve 0 (ProviderTs.mkRunResult true [] None)].

End Examples.

(* ================================================================== *)
(** ** src/components/Provider.ts: the registry of providers           *)
(* ================================================================== *)

Module Registry.

(** What [extractId] and [updateRenderingContextRefs] read and write on
    a provider instance: the props [vid] and [name], the data [id] and
    [isDeactivated]. *)
Record Vm : Type := mkVm {
  vid : string;
  name : option string;
  id : string;
  isDeactivated : bool
}.

(** The instances by handle (a component is compared by identity), the
    [refs] of the observer they all inject, and [PROVIDER_COUNTER]. *)
Record Page : Type := mkPage {
  vms : gmap nat Vm;
  refs : gmap string nat;
  PROVIDER_COUNTER : nat
}.

Definition empty_page : Page := mkPage ∅ ∅ 0.

(** [!!s] for a prop that is a string or null *)
Definition truthy_option (s : option string) : bool :=
  match s with
  | Some s' => truthy_string s'
  | None => false
  end.

(** [extractId(vm)], with the counter before and after *)
Definition extractId (vm : Vm) (counter : nat) : string * nat :=
  if truthy_string (vid vm) then (vid vm, counter)
  else if truthy_option (name vm) then (default EmptyString (name vm), counter)
  else if truthy_string (id vm) then (id vm, counter)
  else ("_vee_" +:+ pretty (S counter), S counter).

(** [createObserver().subscribe(vm)] : [this.refs[vm.id] = vm] *)
Definition subscribe (h : nat) (vm : Vm) (r : gmap string nat) : gmap string nat :=
  <[id vm := h]> r.

(** [createObserver().unsubscribe(id)] : [delete this.refs[id]] *)
Definition unsubscribe (k : string) (r : gmap string nat) : gmap string nat :=
  delete k r.

(** [updateRenderingContextRefs(vm)] for the instance with handle [h] *)
Definition updateRenderingContextRefs (h : nat) (page : Page) : Page :=
  match vms page !! h with
  | None => page
  | Some vm =>
      let '(providedId, counter) := extractId vm (PROVIDER_COUNTER page) in
      if isDeactivated vm
         || (String.eqb (id vm) providedId && bool_decide (is_Some (refs page !! id vm)))
      then mkPage (vms page) (refs page) counter
      else
        let refs1 :=
          if negb (String.eqb (id vm) providedId)
             && bool_decide (refs page !! id vm = Some h)
          then unsubscribe (id vm) (refs page)
          else refs page in
        let vm' := mkVm (vid vm) (name vm) providedId (isDeactivated vm) in
        mkPage (<[h := vm']> (vms page)) (subscribe h vm' refs1) counter
  end.

(** The [activated] hook *)
Definition activated (h : nat) (page : Page) : Page :=
  match vms page !! h with
  | None => page
  | Some vm =>
      mkPage (<[h := mkVm (vid vm) (name vm) (id vm) false]> (vms page))
        (subscribe h vm (refs page)) (PROVIDER_COUNTER page)
  end.

(** The [deactivated] hook *)
Definition deactivated (h : nat) (page : Page) : Page :=
  match vms page !! h with
  | None => page
  | Some vm =>
      mkPage (<[h := mkVm (vid vm) (name vm) (id vm) true]> (vms page))
        (unsubscribe (id vm) (refs page)) (PROVIDER_COUNTER page)
  end.

(** The [beforeDestroy] hook, after which the instance is gone *)
Definition beforeDestroy (h : nat) (page : Page) : Page :=
  match vms page !! h with
  | None => page
  | Some vm =>
      mkPage (delete h (vms page)) (unsubscribe (id vm) (refs page))
        (PROVIDER_COUNTER page)
  end.

(** A new instance: [data()] gives it the empty id. *)
Definition create (h : nat) (vid_prop : string) (name_prop : option string) (page : Page)
  : Page :=
  match vms page !! h with
  | Some _ => page
  | None =>
      mkPage (<[h := mkVm vid_prop name_prop EmptyString false]> (vms page))
        (refs page) (PROVIDER_COUNTER page)
  end.

(** The parent passes new props. *)
Definition set_props (h : nat) (vid_prop : string) (name_prop : option string)
  (page : Page) : Page :=
  match vms page !! h with
  | None => page
  | Some vm =>
      mkPage (<[h := mkVm vid_prop name_prop (id vm) (isDeactivated vm)]> (vms page))
        (refs page) (PROVIDER_COUNTER page)
  end.

Inductive Event : Type :=
| Create (h : nat) (vid_prop : string) (name_prop : option string)
| SetProps (h : nat) (vid_prop : string) (name_prop : option string)
| Render (h : nat)            (* render() calls registerField() *)
| Activated (h : nat)
| Deactivated (h : nat)
| Destroy (h : nat).

Definition step (page : Page) (ev : Event) : Page :=
  match ev with
  | Create h v n => create h v n page
  | SetProps h v n => set_props h v n page
  | Render h => updateRenderingContextRefs h page
  | Activated h => activated h page
  | Deactivated h => deactivated h page
  | Destroy h => beforeDestroy h page
  end.

Definition run_events (evs : list Event) (page : Page) : Page :=
  fold_left step evs page.

(** Every entry of [refs] is filed under the current id of the instance
    it holds. *)
Definition filed_under_own_id (page : Page) : Prop :=
  forall k h, refs page !! k = Some h ->
    exists vm, vms page !! h = Some vm /\ id vm = k.

End Registry.

(* ================================================================== *)
(** ** src/components/Provider.ts: classes and the values lookup       *)
(* ================================================================== *)

Module Classes.

(** A value of the class map: [string | string[]]. *)
Inductive ClassName : Type :=
| OneClass (cls : string)
| ManyClasses (clss : list string).

(** [(names && names[flag]) || flag] *)
Definition class_for (names : option (gmap string ClassName)) (flag_name : string)
  : ClassName :=
  match names ≫= (fun m => m !! flag_name) with
  | Some (OneClass cls) => if truthy_string cls then OneClass cls else OneClass flag_name
  | Some (ManyClasses clss) => ManyClasses clss
  | None => OneClass flag_name
  end.

(** [!flags.validated] is [negb] of this. *)
Definition validated (flags : object (option bool)) : bool :=
  match obj_get flags "validated" with
  | Some (Some b) => b
  | _ => false
  end.

(** One turn of the loop of [computeClassObj].  A flag whose value is
    null or undefined is [None]. *)
Definition class_step (names : option (gmap string ClassName))
  (flags : object (option bool)) (acc : object bool) (flag_name : string)
  : object bool :=
  match obj_get flags flag_name with
  | Some (Some value) =>
      if (String.eqb flag_name "valid" || String.eqb flag_name "invalid")
         && negb (validated flags)
      then acc
      else
        match class_for names flag_name with
        | OneClass cls => obj_set acc cls value
        | ManyClasses clss => fold_left (fun a cls => obj_set a cls value) clss acc
        end
  | _ => acc
  end.

(** [computeClassObj(names, flags)] *)
Definition computeClassObj (names : option (gmap string ClassName))
  (flags : object (option bool)) : object bool :=
  fold_left (class_step names flags) (Object_keys flags) [].


End Classes.

(* ================================================================== *)
(** ** Conditions on a flags object                                    *)
(* ================================================================== *)

Module FlagConditions.
Import Flags.

(** The interaction flags come in complementary pairs, and a field is
    not valid and invalid at once. *)
Definition paired (f : Flags) : Prop :=
  flag f "pristine" = negb (flag f "dirty")
  /\ flag f "untouched" = negb (flag f "touched")
  /\ flag f "valid" && flag f "invalid" = false.

(** A field is validated exactly when it is passed or failed, it is not
    both, and it is not valid and invalid at once. *)
Definition judged (f : Flags) : Prop :=
  flag f "validated" = flag f "passed" || flag f "failed"
  /\ flag f "passed" && flag f "failed" = false
  /\ flag f "valid" && flag f "invalid" = false.

(** The flags object has no key besides those of [initialMeta]. *)
Definition only_meta_keys (f : Flags) : Prop :=
  forall k, ~ In k (Object_keys UseField.initialMeta) -> f !! k = None.

(** A validated field is valid or invalid. *)
Definition decided (f : Flags) : Prop :=
  flag f "validated" = true -> flag f "valid" || flag f "invalid" = true.

(** The events of useField.ts that leave the validation state alone:
    every one but a call of [validate] and a mount with [immediate]. *)
Definition quiet (ev : UseField.Event) : bool :=
  match ev with
  | UseField.Validate => false
  | UseField.Mounted immediate => negb immediate
  | _ => true
  end.

End FlagConditions.

(* ================================================================== *)
(** * Facts about validate.ts                                           *)
(* ================================================================== *)

Module ValidateFacts.
Import Validate.

Section Awaiting.

Context {A B : Type}.

Lemma await_fulfilled (m : Promise A) (k : A -> Promise B) (a : A) :
  outcome m = Fulfilled a ->
  await m k = (calls m ++ calls (k a), outcome (k a)).
Proof.
  destruct m as [log s]; simpl; intros ->.
  unfold await. by destruct (k a).
Qed.

Lemma await_rejected (m : Promise A) (k : A -> Promise B) (e : Thrown) :
  outcome m = Rejected e ->
  await m k = (calls m, Rejected e).
Proof. destruct m as [log s]; simpl; by intros ->. Qed.

Lemma await_settles_fulfilled (m : Promise A) (k : A -> Promise B) (b : B) :
  outcome (await m k) = Fulfilled b ->
  exists a, outcome m = Fulfilled a /\ outcome (k a) = Fulfilled b.
Proof.
  destruct m as [log [a | e]]; simpl.
  - destruct (k a) as [log' r] eqn:Hk; simpl. intros ->. exists a. by rewrite Hk.
  - discriminate.
Qed.

End Awaiting.

Section Rules.

Context (env : Collaborators) (field : FieldValidationContext) (value : jsval).

(** A test that settles fulfilled has made exactly one call: the rule's. *)
Lemma _test_fulfilled_calls (rule : string) (params : Params) (result : option string) :
  outcome (_test env field value rule params) = Fulfilled result ->
  calls (_test env field value rule params) = [call_of env field value (rule, params)].
Proof.
  unfold _test, call_of. destruct (resolveRule env rule) as [validator |]; [| discriminate].
  simpl. destruct (validator _ _ _) as [r | e]; [| discriminate].
  intros _. by destruct r; simpl.
Qed.

Lemma _test_unknown (rule : string) (params : Params) :
  resolveRule env rule = None ->
  _test env field value rule params
  = ([], Rejected (new_Error ("No such validator '" +:+ rule +:+ "' exists."))).
Proof. unfold _test. by intros ->. Qed.



(** One turn of the loop on a rule that reports [verdict]. *)
Lemma run_rules_turn (entry : string * Params) (rest : object Params)
  (errs : list string) (verdict : option string) :
  rule_reports env field value entry verdict ->
  run_rules env field value (entry :: rest) errs
  = match verdict with
    | Some error =>
        if fvc_bails field
        then ([call_of env field value entry], Fulfilled (errs ++ [error]))
        else
          let '(log, r) := run_rules env field value rest (errs ++ [error]) in
          (call_of env field value entry :: log, r)
    | None =>
        let '(log, r) := run_rules env field value rest errs in
        (call_of env field value entry :: log, r)
    end.
Proof.
  destruct entry as [rule params]. intros (result & Hout & Hv). simpl in Hout.
  cbn [run_rules]. rewrite (await_fulfilled _ _ _ Hout).
  rewrite (_test_fulfilled_calls _ _ _ Hout), Hv.
  destruct verdict as [error |].
  - destruct (fvc_bails field); [done |].
    by destruct (run_rules env field value rest (errs ++ [error])).
  - by destruct (run_rules env field value rest errs).
Qed.


(** With bailing the loop stops at the first failure. *)
Lemma run_rules_bails (rules : object Params) (verdicts : list (option string)) :
  fvc_bails field = true ->
  Forall2 (rule_reports env field value) rules verdicts ->
  forall errs,
    outcome (run_rules env field value rules errs)
    = Fulfilled (errs ++ take 1 (failures verdicts)).
Proof.
  intros Hb H. induction H as [| entry verdict rest vs Hhead _ IH]; intros errs.
  - simpl. by rewrite app_nil_r.
  - rewrite (run_rules_turn _ _ _ _ Hhead), Hb.
    destruct verdict as [error |]; simpl; [done |].
    specialize (IH errs). by destruct (run_rules env field value rest errs).
Qed.

(** Rules that pass are stepped over, whatever the bail policy. *)
Lemma run_rules_passing_prefix (pre rest : object Params) (errs : list string) :
  Forall (fun entry => rule_reports env field value entry None) pre ->
  run_rules env field value (pre ++ rest) errs
  = (map (call_of env field value) pre ++ calls (run_rules env field value rest errs),
     outcome (run_rules env field value rest errs)).
Proof.
  induction 1 as [| entry pre Hhead _ IH]; simpl app.
  - by destruct (run_rules env field value rest errs).
  - rewrite (run_rules_turn _ _ _ _ Hhead), IH. done.
Qed.

(** A run over a list with an unresolvable name cannot end without an
    error in hand. *)
Lemma run_rules_unknown_never_clean (rules : object Params) :
  (exists entry, In entry rules /\ resolveRule env (fst entry) = None) ->
  forall errs es,
    outcome (run_rules env field value rules errs) = Fulfilled es -> es <> [].
Proof.
  induction rules as [| [rule params] rest IH]; intros (entry & Hin & Hunk) errs es.
  - destruct Hin.
  - cbn [run_rules]. intros Hout.
    apply await_settles_fulfilled in Hout as (result & Htest & Hout).
    destruct Hin as [<- | Hin].
    { simpl in Hunk. rewrite (_test_unknown _ _ Hunk) in Htest. discriminate. }
    assert (Hrest : exists entry, In entry rest /\ resolveRule env (fst entry) = None)
      by eauto.
    destruct (truthy_error result) as [error |].
    + destruct (fvc_bails field).
      * simpl in Hout. injection Hout as <-. by destruct errs.
      * by apply (IH Hrest) in Hout.
    + by apply (IH Hrest) in Hout.
Qed.

(** Without bailing, rules that settle fulfilled are stepped over with
    their failures kept. *)
Lemma run_rules_collecting_prefix (pre rest : object Params)
  (verdicts : list (option string)) :
  fvc_bails field = false ->
  Forall2 (rule_reports env field value) pre verdicts ->
  forall errs,
    run_rules env field value (pre ++ rest) errs
    = (map (call_of env field value) pre
         ++ calls (run_rules env field value rest (errs ++ failures verdicts)),
       outcome (run_rules env field value rest (errs ++ failures verdicts))).
Proof.
  intros Hb H. induction H as [| entry verdict pre vs Hhead _ IH]; intros errs; simpl app.
  - simpl. rewrite app_nil_r. by destruct (run_rules env field value rest errs).
  - rewrite (run_rules_turn _ _ _ _ Hhead), Hb.
    destruct verdict as [error |]; rewrite IH; simpl; [| done].
    by rewrite <- app_assoc.
Qed.

End Rules.

Lemma validate_named_rules (env : Collaborators) (value : jsval) (raw : RawRules)
  (options : ValidationOptions) :
  validate env value (NamedRules raw) options
  = await (run_rules env (field_context (NamedRules raw) options) value
             (normalizeRules env raw) [])
      (fun errs => resolve (mkResult errs (is_empty_list errs))).
Proof. reflexivity. Qed.










(** C3, as amended.  When the normalized rule list holds a name that does
    not resolve, the run never resolves with [valid = true]; it rejects
    with the error of the missing validator when the run gets to that
    name, that is when every rule before it passes, or when [bails] is
    false and every rule before it settles fulfilled. *)
Theorem unknown_rule_never_passes (env : Collaborators) (value : jsval) (raw : RawRules)
  (options : ValidationOptions) (name : string) (params : Params)
  (pre post : object Params) :
  normalizeRules env raw = pre ++ (name, params) :: post ->
  resolveRule env name = None ->
  (forall result,
     outcome (validate env value (NamedRules raw) options) = Fulfilled result ->
     valid result = false /\ errors result <> [])
  /\ (Forall (fun entry =>
                rule_reports env (field_context (NamedRules raw) options) value entry None)
        pre ->
      outcome (validate env value (NamedRules raw) options)
      = Rejected (new_Error ("No such validator '" +:+ name +:+ "' exists.")))
  /\ (opt_bails options = Some false ->
      (exists verdicts,
         Forall2 (rule_reports env (field_context (NamedRules raw) options) value)
           pre verdicts) ->
      outcome (validate env value (NamedRules raw) options)
      = Rejected (new_Error ("No such validator '" +:+ name +:+ "' exists."))).
Proof.
  intros Hrules Hunk. rewrite validate_named_rules, Hrules.
  set (field := field_context (NamedRules raw) options).
  assert (Hhere : forall errs,
            run_rules env field value ((name, params) :: post) errs
            = ([], Rejected (new_Error ("No such validator '" +:+ name +:+ "' exists.")))).
  { intros errs. cbn [run_rules]. by rewrite (_test_unknown _ _ _ _ _ Hunk). }
  split; [| split].
  - intros result Hout.
    apply await_settles_fulfilled in Hout as (es & Hrun & Hres).
    simpl in Hres. injection Hres as <-. simpl.
    assert (Hes : es <> []).
    { eapply run_rules_unknown_never_clean; [| exact Hrun].
      exists (name, params). split; [| done]. apply in_or_app. right. by left. }
    split; [| done]. by destruct es.
  - intros Hpre.
    rewrite (run_rules_passing_prefix env field value pre _ [] Hpre), Hhere. done.
  - intros Hb (verdicts & Hpre).
    assert (Hfalse : fvc_bails field = false) by (unfold field, field_context; by rewrite Hb).
    rewrite (run_rules_collecting_prefix env field value pre _ verdicts Hfalse Hpre []).
    rewrite Hhere. done.
Qed.

Lemma unknown_rule_never_passes_witness :
  outcome (validate Examples.plain (VStr "abcd")
             (NamedRules (RulesString "min:3|nosuch")) Examples.no_options)
  = Rejected (new_Error "No such validator 'nosuch' exists.").
Proof.
  refine (proj1 (proj2
    (unknown_rule_never_passes Examples.plain (VStr "abcd")
       (RulesString "min:3|nosuch") Examples.no_options "nosuch" (ParamList [])
       [("min", ParamList [VStr "3"])] [] _ _)) _).
  - reflexivity.
  - reflexivity.
  - repeat constructor. eexists; split; vm_compute; reflexivity.
Defined.

(** C3 as it is written fails: under the default bail policy a rule that
    fails before the unresolvable name ends the run, which resolves. *)
Lemma unknown_rule_after_a_failure_resolves :
  In "nosuch"
    (Object_keys (normalizeRules Examples.plain (RulesString "min:3|nosuch")))
  /\ resolveRule Examples.plain "nosuch" = None
  /\ outcome (validate Examples.plain (VStr EmptyString)
                (NamedRules (RulesString "min:3|nosuch")) Examples.no_options)
     = Fulfilled (mkResult ["Field is invalid"] false).
Proof. split; [| split]; vm_compute; auto. Qed.

Lemma await_first_call {A B} (m : Promise A) (k : A -> Promise B) (c : Call)
  (log : list Call) :
  calls m = c :: log -> exists log', calls (await m k) = c :: log'.
Proof.
  destruct m as [log0 [a | e]]; simpl; intros ->; [| by eexists].
  destruct (k a) as [log1 r]. by eexists.
Qed.

Lemma _test_invokes (env : Collaborators) (field : FieldValidationContext) (value : jsval)
  (entry : string * Params) (validator : ValidationRuleFunction) :
  resolveRule env (fst entry) = Some validator ->
  calls (_test env field value (fst entry) (snd entry)) = [call_of env field value entry].
Proof.
  intros Hres. unfold _test, call_of. rewrite Hres. cbv zeta.
  destruct (validator _ _ _) as [result | e]; [| done].
  unfold invoke, await. by destruct result; [| | | | | | |]; simpl;
    try destruct (truthy _).
Qed.

(** Whatever the value is, the first rule of the list is invoked on
    it. *)
Lemma validate_invokes_first_rule (env : Collaborators) (value : jsval) (raw : RawRules)
  (options : ValidationOptions) (entry : string * Params) (rest : object Params)
  (validator : ValidationRuleFunction) :
  normalizeRules env raw = entry :: rest ->
  resolveRule env (fst entry) = Some validator ->
  head (calls (validate env value (NamedRules raw) options))
  = Some (call_of env (field_context (NamedRules raw) options) value entry).
Proof.
  intros Hrules Hres. rewrite validate_named_rules, Hrules.
  pose proof (_test_invokes env (field_context (NamedRules raw) options) value entry
                validator Hres) as Hcall.
  destruct entry as [rule params]. cbn [run_rules]. cbn [fst snd] in Hcall.
  destruct (await_first_call _
              (fun result =>
                 match truthy_error result with
                 | Some error =>
                     if fvc_bails (field_context (NamedRules raw) options)
                     then resolve ([] ++ [error])
                     else run_rules env (field_context (NamedRules raw) options) value rest
                            ([] ++ [error])
                 | None => run_rules env (field_context (NamedRules raw) options) value rest []
                 end)
              _ _ Hcall) as [log1 H1].
  destruct (await_first_call _ (fun errs => resolve (mkResult errs (is_empty_list errs)))
              _ _ H1) as [log2 H2].
  by rewrite H2.
Qed.

(** C2: validate.ts has no test for emptiness and knows no require
    rule.  The empty string, null and undefined are empty values and
    [min:3] holds no require rule, and still the rule is invoked on each
    of them and its failure is the result. *)
Theorem empty_optional_value_is_validated :
  Forall
    (fun value =>
       isEmptyValue value = true
       /\ validate Examples.plain value (NamedRules (RulesString "min:3")) Examples.no_options
          = ([CallRule "min" value (ParamList [VStr "3"])],
             Fulfilled (mkResult ["Field is invalid"] false)))
    [VStr EmptyString; VNull; VUndefined]
  /\ makes_required (String.eqb "required")
       (normalizeRules Examples.plain (RulesString "min:3")) = false.
Proof. split; [repeat constructor |]; vm_compute; reflexivity. Qed.

(** C6, as amended.  A rule whose validate capability resolves with a
    string makes [_test] resolve with that exact string as the error,
    whatever generator is configured; a rule that resolves with a falsy
    value that is no string makes [_test] resolve with one generated
    message: the configured generator's output for the rule's context,
    as it is, or ["Field is invalid"] when none is configured; that
    message is non-empty when no generator is configured or when the
    generator's output is. *)
Theorem failing_rule_message (env : Collaborators) (field : FieldValidationContext)
  (value : jsval) (rule : string) (params : Params)
  (validator : ValidationRuleFunction) (result : jsval) :
  resolveRule env rule = Some validator ->
  validator value (fillTargetValues env params (fvc_formData field))
    (rule_context env field value rule params) = Fulfilled result ->
  (forall s, result = VStr s ->
     outcome (_test env field value rule params) = Fulfilled (Some s))
  /\ ((forall s, result <> VStr s) -> truthy result = false ->
      exists message,
        outcome (_test env field value rule params) = Fulfilled (Some message)
        /\ message = _generateFieldError env (rule_context env field value rule params)
        /\ (generateMessage env = None -> message = "Field is invalid")
        /\ (forall generator, generateMessage env = Some generator ->
              message = generator (rule_context env field value rule params))
        /\ (truthy_string message = true
            <-> generateMessage env = None
                \/ exists generator,
                     generateMessage env = Some generator
                     /\ truthy_string
                          (generator (rule_context env field value rule params)) = true)).
Proof.
  intros Hres Hval. unfold _test, rule_context in *. rewrite Hres. simpl.
  rewrite Hval. split.
  - by intros s ->.
  - intros Hnot Hfalsy. eexists. split; [| split; [reflexivity |]].
    + destruct result; try done; simpl in *; try by rewrite Hfalsy.
      by destruct (Hnot s).
    + unfold _generateFieldError. destruct (generateMessage env) as [g |].
      * split; [done |]. split; [by intros ? [= <-] |]. split.
        -- intros Hne. right. by exists g.
        -- by intros [? | (g' & [= <-] & ?)].
      * split; [done |]. split; [done |]. split; [by left | done].
Qed.

Lemma failing_rule_message_witness :
  outcome (_test Examples.verbose
             (field_context (NamedRules (RulesString "min:3")) (mkOptions (Some "Name") None None))
             (VStr "ab") "min" (ParamList [VStr "3"]))
  = Fulfilled (Some "Name is not valid")
  /\ outcome (_test Examples.verbose
                (field_context (NamedRules (RulesString "required")) Examples.no_options)
                VNull "required" (ParamList []))
     = Fulfilled (Some "This field is required").
Proof.
  split.
  - destruct (failing_rule_message Examples.verbose
                (field_context (NamedRules (RulesString "min:3")) (mkOptions (Some "Name") None None))
                (VStr "ab") "min" (ParamList [VStr "3"]) Examples.min (VBool false)
                eq_refl eq_refl) as [_ H].
    destruct H as (message & Hout & -> & _); [done | done |]. exact Hout.
  - exact (proj1 (failing_rule_message Examples.verbose
                    (field_context (NamedRules (RulesString "required")) Examples.no_options)
                    VNull "required" (ParamList []) Examples.required
                    (VStr "This field is required") eq_refl eq_refl)
             "This field is required" eq_refl).
Defined.

(** C6 as it is written fails: with a configured generator that returns
    the empty string, a rule that resolves with false gets the empty
    message, which the loop of [_validate] then takes for no error. *)
Lemma generated_message_can_be_empty :
  Examples.min (VStr "ab") (ParamList [VStr "3"])
    (rule_context Examples.silent
       (field_context (NamedRules (RulesString "min:3")) Examples.no_options)
       (VStr "ab") "min" (ParamList [VStr "3"]))
  = Fulfilled (VBool false)
  /\ outcome (_test Examples.silent
                (field_context (NamedRules (RulesString "min:3")) Examples.no_options)
                (VStr "ab") "min" (ParamList [VStr "3"]))
     = Fulfilled (Some EmptyString)
  /\ outcome (validate Examples.silent (VStr "ab")
                (NamedRules (RulesString "min:3")) Examples.no_options)
     = Fulfilled (mkResult [] true).
Proof. split; [| split]; vm_compute; reflexivity. Qed.

End ValidateFacts.

(* ================================================================== *)
(** * Facts about objects built by assignment                           *)
(* ================================================================== *)

Module ObjectFacts.

Section Assignments.

Context {V : Type}.
Implicit Types (o : object V) (k : string) (v : V).

Lemma obj_get_set_eq o k v : obj_get (obj_set o k v) k = Some v.
Proof.
  induction o as [| [k' v'] o IH]; simpl.
  - by rewrite String.eqb_refl.
  - destruct (String.eqb k' k) eqn:E; simpl; rewrite E; [done | exact IH].
Qed.

Lemma obj_get_set_ne o k k' v : k <> k' -> obj_get (obj_set o k v) k' = obj_get o k'.
Proof.
  intros Hne. induction o as [| [k0 v0] o IH]; simpl.
  - destruct (String.eqb_spec k k'); [done | done].
  - destruct (String.eqb_spec k0 k) as [-> | Hk]; simpl.
    + destruct (String.eqb_spec k k'); [done | done].
    + destruct (String.eqb_spec k0 k'); [done | exact IH].
Qed.

Lemma obj_get_None_iff o k : obj_get o k = None <-> ~ In k (Object_keys o).
Proof.
  induction o as [| [k' v'] o IH]; simpl; [tauto |].
  destruct (String.eqb_spec k' k) as [-> | Hne].
  - split; [done | tauto].
  - rewrite IH. tauto.
Qed.

Lemma obj_set_keys_new o k v :
  ~ In k (Object_keys o) -> Object_keys (obj_set o k v) = Object_keys o ++ [k].
Proof.
  induction o as [| [k' v'] o IH]; simpl; [done |].
  intros Hnot. destruct (String.eqb_spec k' k) as [-> | Hne]; [tauto |].
  simpl. rewrite IH; [done | tauto].
Qed.

Lemma obj_set_new o k v : ~ In k (Object_keys o) -> obj_set o k v = o ++ [(k, v)].
Proof.
  induction o as [| [k' v'] o IH]; simpl; [done |].
  intros Hnot. destruct (String.eqb_spec k' k) as [-> | Hne]; [tauto |].
  rewrite IH; [done | tauto].
Qed.

Lemma obj_set_keys_in o k v k' :
  In k' (Object_keys (obj_set o k v)) <-> In k' (Object_keys o) \/ k' = k.
Proof.
  induction o as [| [k0 v0] o IH]; simpl.
  - intuition.
  - destruct (String.eqb_spec k0 k) as [-> | Hne]; simpl.
    + intuition.
    + rewrite IH. intuition.
Qed.

Lemma assign_all_cons (es : list (string * V)) k v acc :
  assign_all ((k, v) :: es) acc = assign_all es (obj_set acc k v).
Proof. reflexivity. Qed.

Lemma assign_all_snoc (es : list (string * V)) k v acc :
  assign_all (es ++ [(k, v)]) acc = obj_set (assign_all es acc) k v.
Proof. unfold assign_all. by rewrite fold_left_app. Qed.

Lemma assign_all_fresh (es : list (string * V)) :
  forall acc,
    NoDup (Object_keys acc ++ map fst es) ->
    assign_all es acc = acc ++ es.
Proof.
  induction es as [| [k v] es IH]; intros acc Hnd.
  - by rewrite app_nil_r.
  - assert (Hk : ~ In k (Object_keys acc)).
    { apply NoDup_app in Hnd as (_ & Hdisj & _). intros Hin.
      apply list_elem_of_In in Hin. apply (Hdisj k Hin). by left. }
    rewrite assign_all_cons, (obj_set_new _ _ _ Hk), IH.
    + by rewrite <- app_assoc.
    + unfold Object_keys in *. rewrite map_app. simpl in *. by rewrite <- app_assoc.
Qed.

(** The value under a key after the assignments: that of the last entry
    with that key, or what was there. *)
Lemma assign_all_get (es : list (string * V)) k :
  forall acc,
    obj_get (assign_all es acc) k
    = match last (List.filter (fun e => String.eqb (fst e) k) es) with
      | Some e => Some (snd e)
      | None => obj_get acc k
      end.
Proof.
  induction es as [| [k' v'] es IH] using rev_ind; intros acc; [done |].
  rewrite assign_all_snoc, List.filter_app. simpl.
  destruct (String.eqb_spec k' k) as [-> | Hne].
  - by rewrite obj_get_set_eq, last_snoc.
  - by rewrite (obj_get_set_ne _ _ _ _ Hne), app_nil_r, IH.
Qed.

End Assignments.

End ObjectFacts.

(* ================================================================== *)
(** * Facts about locators and schema validation                       *)
(* ================================================================== *)

Module SchemaFacts.
Import Validate ObjectFacts.

Lemma normalize_not_locator (env : Collaborators) (crossTable : FormData) (v : jsval) :
  isLocator v = false -> normalize env crossTable v = v.
Proof.
  destruct v as [| | | | | | | [ref |]]; try done. simpl. by intros ->.
Qed.

Lemma normalize_locator (env : Collaborators) (crossTable : FormData) (ref : string) :
  isLocator (VFun (Some ref)) = true ->
  normalize env crossTable (VFun (Some ref)) = callLocator env ref crossTable.
Proof. simpl. by intros ->. Qed.

Lemma makes_own_property_iff (k : string) :
  makes_own_property k = true <-> k <> "__proto__".
Proof.
  unfold makes_own_property. rewrite negb_true_iff.
  destruct (String.eqb_spec k "__proto__"); split; congruence.
Qed.

Lemma own_keys_all (ks : list string) :
  ~ In "__proto__" ks -> List.filter makes_own_property ks = ks.
Proof.
  induction ks as [| k ks IH]; [done |]. intros Hno. cbn [List.filter].
  assert (Hk : makes_own_property k = true).
  { apply makes_own_property_iff. intros ->. apply Hno. by left. }
  rewrite Hk. f_equal. apply IH. intros Hin. apply Hno. by right.
Qed.

(** The reduce of [fillTargetValues] as a list of assignments: one for
    each key that is not [__proto__]. *)
Lemma fill_map_as_assignments (env : Collaborators) (crossTable : FormData)
  (o : object jsval) :
  fillTargetValues env (ParamMap o) crossTable
  = ParamMap
      (assign_all
         (map (fun k => (k, normalize env crossTable (default VUndefined (obj_get o k))))
            (List.filter makes_own_property (Object_keys o)))
         []).
Proof.
  unfold fillTargetValues, assign_all. f_equal.
  generalize (@nil (string * jsval)) as acc.
  induction (Object_keys o) as [| k ks IH]; intros acc; [done |].
  cbn [fold_left List.filter]. unfold obj_assign at 2.
  destruct (makes_own_property k); [| apply IH]. cbn [map fold_left]. apply IH.
Qed.

(** What stands under a key after one assignment for each key of a
    list. *)
Lemma assigned_by_key {V} (g : string -> V) (ks : list string) (k : string) :
  obj_get (assign_all (map (fun k => (k, g k)) ks) []) k
  = if in_dec String.string_dec k ks then Some (g k) else None.
Proof.
  rewrite assign_all_get. simpl.
  induction ks as [| k' ks IH] using rev_ind; [done |].
  rewrite map_app, List.filter_app. simpl.
  destruct (String.eqb_spec k' k) as [-> | Hne].
  - rewrite last_snoc. simpl.
    destruct (in_dec String.string_dec k (ks ++ [k])) as [_ | Hn]; [done |].
    destruct Hn. apply in_or_app. right. by left.
  - rewrite app_nil_r, IH.
    destruct (in_dec String.string_dec k ks) as [Hin | Hnin],
             (in_dec String.string_dec k (ks ++ [k'])) as [Hin' | Hnin']; try done.
    + destruct Hnin'. apply in_or_app. by left.
    + apply in_app_or in Hin' as [? | [? | []]]; [done | done].
Qed.

Lemma filled_map_get (env : Collaborators) (crossTable : FormData) (o : object jsval)
  (k : string) :
  obj_get
    (assign_all
       (map (fun k => (k, normalize env crossTable (default VUndefined (obj_get o k))))
          (List.filter makes_own_property (Object_keys o)))
       [])
    k
  = if makes_own_property k then normalize env crossTable <$> obj_get o k else None.
Proof.
  rewrite (assigned_by_key
             (fun k => normalize env crossTable (default VUndefined (obj_get o k)))).
  destruct (in_dec String.string_dec k (List.filter makes_own_property (Object_keys o)))
    as [Hin | Hnin].
  - apply filter_In in Hin as [Hin ->].
    destruct (obj_get o k) as [v |] eqn:Hget; [done |].
    apply obj_get_None_iff in Hget. done.
  - destruct (makes_own_property k) eqn:Hown; [| done].
    destruct (obj_get o k) as [v |] eqn:Hget; [| done].
    destruct Hnin. apply filter_In. split; [| done].
    destruct (in_dec String.string_dec k (Object_keys o)) as [| Hn]; [done |].
    apply obj_get_None_iff in Hn. congruence.
Qed.

Lemma filled_map_keys_in (env : Collaborators) (crossTable : FormData)
  (o : object jsval) (k : string) :
  In k (Object_keys
          (assign_all
             (map (fun k => (k, normalize env crossTable (default VUndefined (obj_get o k))))
                (List.filter makes_own_property (Object_keys o)))
             []))
  <-> In k (Object_keys o) /\ makes_own_property k = true.
Proof.
  assert (H : forall o' : object jsval, In k (Object_keys o') <-> obj_get o' k <> None).
  { intros o'. rewrite obj_get_None_iff. split; [tauto |]. intros Hnn.
    destruct (in_dec String.string_dec k (Object_keys o')); tauto. }
  rewrite !H, filled_map_get.
  destruct (makes_own_property k); [| by split; [| intros []]].
  destruct (obj_get o k); simpl; split; try done; by intros [].
Qed.

(** C10, as amended.  [fillTargetValues] keeps the shape of the
    parameters: an array gives an array of the same length; a keyed map
    gives a map with the same keys, an own key [__proto__] apart, which
    the result does not have; a parameter that is no locator is found
    unchanged at its position or under its key, and a locator is
    replaced by what its call on the cross-field table returns. *)
Theorem fillTargetValues_frame (env : Collaborators) (crossTable : FormData) :
  (forall l : list jsval,
     exists l' : list jsval,
       fillTargetValues env (ParamList l) crossTable = ParamList l'
       /\ length l' = length l
       /\ (forall (i : nat) (v : jsval),
             l !! i = Some v -> isLocator v = false -> l' !! i = Some v)
       /\ (forall (i : nat) (ref : string),
             l !! i = Some (VFun (Some ref)) -> isLocator (VFun (Some ref)) = true ->
             l' !! i = Some (callLocator env ref crossTable)))
  /\ (forall o : object jsval,
       exists o' : object jsval,
         fillTargetValues env (ParamMap o) crossTable = ParamMap o'
         /\ (forall k, In k (Object_keys o')
                       <-> In k (Object_keys o) /\ k <> "__proto__")
         /\ (NoDup (Object_keys o) ->
             Object_keys o'
             = List.filter (fun k => negb (String.eqb k "__proto__")) (Object_keys o))
         /\ (~ In "__proto__" (Object_keys o) -> NoDup (Object_keys o) ->
             Object_keys o' = Object_keys o)
         /\ (forall k v, k <> "__proto__" ->
               obj_get o k = Some v -> isLocator v = false -> obj_get o' k = Some v)
         /\ (forall k ref, k <> "__proto__" ->
               obj_get o k = Some (VFun (Some ref)) ->
               isLocator (VFun (Some ref)) = true ->
               obj_get o' k = Some (callLocator env ref crossTable))).
Proof.
  split.
  - intros l. exists (map (normalize env crossTable) l).
    split; [done |]. split; [by rewrite length_map |]. split.
    + intros i v Hi Hnot. rewrite list_lookup_fmap_Some. exists v.
      by rewrite normalize_not_locator.
    + intros i ref Hi Hloc. rewrite list_lookup_fmap_Some. eexists.
      split; [| exact Hi]. by rewrite normalize_locator.
  - intros o. eexists. split; [apply fill_map_as_assignments |].
    pose proof makes_own_property_iff as Hown.
    assert (Hkeys : NoDup (Object_keys o) ->
              Object_keys
                (assign_all
                   (map (fun k => (k, normalize env crossTable
                                        (default VUndefined (obj_get o k))))
                      (List.filter makes_own_property (Object_keys o)))
                   [])
              = List.filter makes_own_property (Object_keys o)).
    { intros Hnd. rewrite assign_all_fresh.
      - unfold Object_keys at 1. simpl. rewrite map_map. simpl. apply map_id.
      - simpl. rewrite map_map, map_id. apply NoDup_ListNoDup.
        apply List.NoDup_filter. by apply NoDup_ListNoDup. }
    split; [| split; [exact Hkeys | split; [| split]]].
    + intros k. rewrite filled_map_keys_in, Hown. done.
    + intros Hno Hnd. rewrite (Hkeys Hnd). by apply own_keys_all.
    + intros k v Hk Hget Hnot. apply Hown in Hk. rewrite filled_map_get, Hk, Hget.
      exact (f_equal Some (normalize_not_locator env crossTable v Hnot)).
    + intros k ref Hk Hget Hloc. apply Hown in Hk. rewrite filled_map_get, Hk, Hget.
      exact (f_equal Some (normalize_locator env crossTable ref Hloc)).
Qed.

Lemma fillTargetValues_frame_witness :
  fillTargetValues Examples.plain
    (ParamList [VStr "0"; VFun (Some "maxValue")]) (<["maxValue" := VNum 15]> ∅)
  = ParamList [VStr "0"; VNum 15]
  /\ fillTargetValues Examples.plain
       (ParamMap [("min", VStr "0"); ("max", VFun (Some "maxValue"))])
       (<["maxValue" := VNum 15]> ∅)
     = ParamMap [("min", VStr "0"); ("max", VNum 15)]
  /\ Object_keys [("min", VStr "0"); ("max", VNum 15)] = ["min"; "max"].
Proof.
  split; [| split].
  - vm_compute; reflexivity.
  - vm_compute; reflexivity.
  - destruct (proj2 (fillTargetValues_frame Examples.plain (<["maxValue" := VNum 15]> ∅))
                [("min", VStr "0"); ("max", VFun (Some "maxValue"))])
      as (o' & Hfill & _ & _ & Hkeys & _).
    vm_compute in Hfill. injection Hfill as <-. apply Hkeys.
    + simpl. intros [H | [H | []]]; discriminate.
    + apply (bool_decide_unpack _). by vm_compute.
Defined.

(** C10 as it is written fails: a map of parameters with an own key
    [__proto__] comes back without that key. *)
Lemma fillTargetValues_loses_proto_key :
  fillTargetValues Examples.plain
    (ParamMap [("a", VNum 1); ("__proto__", VNum 2)]) ∅
  = ParamMap [("a", VNum 1)]
  /\ Object_keys [("a", VNum 1); ("__proto__", VNum 2)] = ["a"; "__proto__"]
  /\ Object_keys [("a", VNum 1)] = ["a"].
Proof. repeat split; vm_compute; reflexivity. Qed.

(** The reduce of [validateYupSchema] as a list of assignments. *)
Lemma schema_results_as_assignments (errs : list Thrown) :
  schema_results errs
  = assign_all
      (map (fun e => (default "undefined" (err_path e),
                      mkResult (err_errors e) (is_empty_list (err_errors e))))
         errs)
      [].
Proof.
  unfold schema_results, assign_all.
  generalize (@nil (string * ValidationResult)) as acc.
  induction errs as [| e errs IH]; intros acc; [done |]. simpl. apply IH.
Qed.

(** C5, as amended.  A rejection of a schema validator whose name is
    ValidationError becomes data: for a field, the result's errors are
    the rejection's [errors] as they are; for a form, the results are
    built from the rejection's [inner] errors (none when [inner] is
    missing), each path holding the [errors] of the last inner error
    with that path as they are.  A rejection with any other name, or
    with none, is thrown again as it is. *)
Theorem validation_error_rejections (err : Thrown) :
  (forall value validator bails,
     yup_validate validator value (default true bails) = Rejected err ->
     outcome (validateFieldWithYup value validator bails)
     = if name_is err "ValidationError" then Fulfilled (err_errors err)
       else Rejected err)
  /\ (forall env value validator options,
       yup_validate validator value (default true (opt_bails options)) = Rejected err ->
       outcome (validate env value (SchemaRule validator) options)
       = if name_is err "ValidationError"
         then Fulfilled (mkResult (err_errors err) (is_empty_list (err_errors err)))
         else Rejected err)
  /\ (forall schema values,
       yup_validate schema values false = Rejected err ->
       outcome (validateYupSchema schema values)
       = if name_is err "ValidationError"
         then Fulfilled
                (mkFormResult (is_empty_list (default [] (err_inner err)))
                   (schema_results (default [] (err_inner err))))
         else Rejected err)
  /\ (forall path,
       obj_get (schema_results (default [] (err_inner err))) path
       = (fun e => mkResult (err_errors e) (is_empty_list (err_errors e)))
           <$> last (List.filter
                       (fun e => String.eqb (default "undefined" (err_path e)) path)
                       (default [] (err_inner err)))).
Proof.
  split; [| split; [| split]].
  - intros value validator bails Hrej. unfold validateFieldWithYup.
    rewrite Hrej. simpl. by destruct (name_is err "ValidationError").
  - intros env value validator options Hrej.
    unfold validate, _validate, field_context. simpl.
    unfold validateFieldWithYup. simpl. rewrite Hrej. simpl.
    by destruct (name_is err "ValidationError").
  - intros schema values Hrej. unfold validateYupSchema. rewrite Hrej. simpl.
    by destruct (name_is err "ValidationError").
  - intros path. rewrite schema_results_as_assignments, assign_all_get.
    induction (default [] (err_inner err)) as [| e es IH] using rev_ind; [done |].
    rewrite map_app, !List.filter_app. simpl.
    destruct (String.eqb_spec (default "undefined" (err_path e)) path) as [-> | Hne].
    + by rewrite !last_snoc.
    + by rewrite !app_nil_r.
Qed.

Lemma validation_error_rejections_witness :
  outcome (validateFieldWithYup (VStr "ab") Examples.strict_schema (Some false))
  = Fulfilled ["too short"; "not an email"]
  /\ outcome (validateFieldWithYup (VStr "ab") Examples.crashing_schema None)
     = Rejected (MkThrown (Some "TypeError") "x is not a function" [] None None).
Proof.
  split.
  - exact (proj1 (validation_error_rejections _) (VStr "ab") Examples.strict_schema
             (Some false) eq_refl).
  - exact (proj1 (validation_error_rejections _) (VStr "ab") Examples.crashing_schema
             None eq_refl).
Defined.

(** C5 as it is written fails for the form-level entry point: a
    rejection named ValidationError whose [errors] are not empty and
    that has no [inner] list is turned into a valid result with no
    errors in it. *)
Lemma validation_error_without_inner_is_dropped :
  yup_validate Examples.flat_schema ∅ false
  = Rejected (MkThrown (Some "ValidationError") "name is required"
                ["name is required"] None None)
  /\ validateYupSchema Examples.flat_schema ∅
     = ([CallSchema false], Fulfilled (mkFormResult true [])).
Proof. split; reflexivity. Qed.

Lemma Promise_all_fulfilled {A} (first_to_settle : list Thrown -> nat)
  (ps : list (Promise A)) (rs : list A) :
  Forall2 (fun p r => outcome p = Fulfilled r) ps rs ->
  outcome (Promise_all first_to_settle ps) = Fulfilled rs.
Proof.
  intros Hall.
  assert (H : rejections ps = [] /\ fulfilments ps = rs).
  { unfold rejections, fulfilments.
    induction Hall as [| p r ps rs Hp _ [IH1 IH2]]; [done |].
    destruct p as [log settled]. simpl in Hp. subst settled.
    split; [exact IH1 |].
    change (omap ?f ((log, Fulfilled r) :: ps)) with (r :: omap f ps).
    by rewrite IH2. }
  destruct H as [Hrej Hful]. unfold Promise_all. cbn [outcome snd].
  by rewrite Hrej, Hful.
Qed.

Lemma collect_results_from (prs : list (string * ValidationResult)) :
  forall (isAllValid : bool) (acc : object ValidationResult),
    fold_left
      (fun '(isAllValid, acc) '(path, r) =>
         (if negb (valid r) then false else isAllValid,
          obj_set acc path (mkResult (errors r) (valid r))))
      prs (isAllValid, acc)
    = (isAllValid && forallb (fun pr => valid (snd pr)) prs, assign_all prs acc).
Proof.
  induction prs as [| [path [es v]] prs IH]; intros b acc.
  - simpl. by rewrite andb_true_r.
  - cbn [fold_left]. rewrite IH, assign_all_cons. f_equal. by destruct v, b.
Qed.

Lemma validateYupSchema_calls (schema : YupValidator FormData) (values : FormData) :
  calls (validateYupSchema schema values) = [CallSchema false].
Proof.
  unfold validateYupSchema. simpl.
  destruct (yup_validate schema values false) as [[] | err]; simpl; [done |].
  by destruct (name_is err "ValidationError").
Qed.

(** The per-path results of [validateObjectSchema] when every field's
    validation resolves. *)
Lemma validateObjectSchema_resolves (env : Collaborators) (schema : object RuleExpression)
  (values : FormData) (opts : option ObjectSchemaOptions)
  (prs : list (string * ValidationResult)) :
  NoDup (Object_keys schema) ->
  Forall2
    (fun entry pr =>
       fst pr = fst entry
       /\ outcome
            (validate env (getFromPath env values (fst entry)) (snd entry)
               (mkOptions (Some (field_label opts (fst entry))) (Some values)
                  (Some (schema_bails opts))))
          = Fulfilled (snd pr))
    schema prs ->
  outcome (validateObjectSchema env schema values opts)
  = Fulfilled (mkFormResult (forallb (fun pr => valid (snd pr)) prs) prs).
Proof.
  intros Hnd Hall. unfold validateObjectSchema.
  assert (Hps : Forall2 (fun p r => outcome p = Fulfilled r)
                  (map (fun '(path, rules) => validate_path env values opts path rules) schema)
                  prs).
  { induction Hall as [| [path rules] [path' r] schema prs [Hfst Hout] _ IH]; [constructor |].
    simpl in *. subst path'. constructor.
    - unfold validate_path. by rewrite (ValidateFacts.await_fulfilled _ _ _ Hout).
    - apply IH. by inversion Hnd. }
  rewrite (ValidateFacts.await_fulfilled _ _ _ (Promise_all_fulfilled _ _ _ Hps)).
  cbn [outcome snd]. unfold collect_results. rewrite collect_results_from.
  rewrite assign_all_fresh; [done |]. simpl.
  replace (map fst prs) with (Object_keys schema); [done |].
  clear Hps Hnd. induction Hall as [| entry pr schema prs [Hfst _] _ IH]; [done |].
  simpl. by rewrite Hfst, IH.
Qed.

(** C8, as amended.  The plain-schema entry point has both modes, chosen
    by the caller through [opts.bails] and aborting early when the
    option is left out: every field is validated under that one bail
    policy.  The schema-capability entry point takes no such option and
    always calls the schema validator in collect-all mode. *)
Theorem schema_entry_point_modes (env : Collaborators) :
  (forall schema values opts prs,
     NoDup (Object_keys schema) ->
     Forall2
       (fun entry pr =>
          fst pr = fst entry
          /\ outcome
               (validate env (getFromPath env values (fst entry)) (snd entry)
                  (mkOptions (Some (field_label opts (fst entry))) (Some values)
                     (Some (schema_bails opts))))
             = Fulfilled (snd pr))
       schema prs ->
     outcome (validateObjectSchema env schema values opts)
     = Fulfilled (mkFormResult (forallb (fun pr => valid (snd pr)) prs) prs))
  /\ (schema_bails None = true
      /\ forall names bails,
           schema_bails (Some (mkSchemaOptions names bails)) = default true bails)
  /\ (forall schema values,
        calls (validateYupSchema schema values) = [CallSchema false]).
Proof.
  split; [| split; [split |]].
  - intros. by apply validateObjectSchema_resolves.
  - done.
  - done.
  - apply validateYupSchema_calls.
Qed.

Lemma schema_entry_point_modes_witness :
  outcome (validateObjectSchema Examples.plain
             [("name", NamedRules (RulesString "required|min:3"))] ∅ None)
  = Fulfilled (mkFormResult false
                 [("name", mkResult ["This field is required"] false)])
  /\ outcome (validateObjectSchema Examples.plain
                [("name", NamedRules (RulesString "required|min:3"))] ∅
                (Some (mkSchemaOptions None (Some false))))
     = Fulfilled (mkFormResult false
                    [("name", mkResult ["This field is required"; "Field is invalid"] false)]).
Proof.
  split.
  - apply (proj1 (schema_entry_point_modes Examples.plain)
             [("name", NamedRules (RulesString "required|min:3"))] ∅ None
             [("name", mkResult ["This field is required"] false)]).
    + apply (bool_decide_unpack _). by vm_compute.
    + repeat constructor.
  - apply (proj1 (schema_entry_point_modes Examples.plain)
             [("name", NamedRules (RulesString "required|min:3"))] ∅
             (Some (mkSchemaOptions None (Some false)))
             [("name", mkResult ["This field is required"; "Field is invalid"] false)]).
    + apply (bool_decide_unpack _). by vm_compute.
    + repeat constructor.
Defined.

(** C8 as it is written fails for the schema-capability entry point: no
    call of it asks the schema validator to abort early, and a
    validator that reports less when aborting early has all its errors
    in the result. *)
Lemma schema_capability_never_aborts_early :
  ~ (exists values,
       In (CallSchema true) (calls (validateYupSchema Examples.two_fields_schema values)))
  /\ validateYupSchema Examples.two_fields_schema ∅
     = ([CallSchema false],
        Fulfilled
          (mkFormResult false
             [("email", mkResult ["email is required"] false);
              ("password", mkResult ["password is required"] false)])).
Proof.
  split; [| reflexivity].
  intros (values & Hin).
  rewrite validateYupSchema_calls in Hin.
  destruct Hin as [H | []]. discriminate.
Qed.

End SchemaFacts.

(* ================================================================== *)
(** * Facts about observer.js                                           *)
(* ================================================================== *)

Module ObserverFacts.
Import Flags Observer.

Lemma merge_flag_other (provider : Provider) (acc : gmap string (option bool))
  (k k' : string) :
  k <> k' -> merge_flag provider acc k !! k' = acc !! k'.
Proof.
  intros Hne. unfold merge_flag. destruct (acc !! k) as [lhs |].
  - destruct (mergeFlags _ _ _); [by rewrite lookup_insert_ne | done].
  - by rewrite lookup_insert_ne.
Qed.

Lemma merge_flags_other (provider : Provider) (ks : list string) (name : string) :
  ~ In name ks ->
  forall acc, fold_left (merge_flag provider) ks acc !! name = acc !! name.
Proof.
  induction ks as [| k ks IH]; intros Hnot acc; [done |]. simpl in *.
  rewrite IH by tauto. apply merge_flag_other. intros ->. tauto.
Qed.

Lemma merge_flags_self (provider : Provider) (ks : list string) (name : string) :
  NoDup ks -> In name ks ->
  forall acc,
    fold_left (merge_flag provider) ks acc !! name
    = merge_flag provider acc name !! name.
Proof.
  induction ks as [| k ks IH]; intros Hnd Hin acc; [destruct Hin |].
  apply NoDup_cons in Hnd as [Hk Hnd]. simpl.
  destruct (String.string_dec k name) as [-> | Hne].
  - apply merge_flags_other. by rewrite <- list_elem_of_In.
  - destruct Hin as [? | Hin]; [done |].
    rewrite (IH Hnd Hin). unfold merge_flag at 1 3.
    rewrite (merge_flag_other _ _ _ _ Hne).
    destruct (acc !! name) as [lhs |].
    + destruct (mergeFlags _ _ _); [by rewrite !lookup_insert_eq | ].
      by apply merge_flag_other.
    + by rewrite !lookup_insert_eq.
Qed.

(** One provider merged into the aggregate, read at a flag of the
    table. *)
Lemma merge_provider_flag (acc : Ctx) (provider : Provider) (name : string)
  (strategy : Strategy) :
  obj_get flagMergingStrategy name = Some strategy ->
  ctx_flags (merge_provider acc provider) !! name
  = Some
      match ctx_flags acc !! name with
      | None => flags provider !! name
      | Some lhs =>
          Some match strategy with
               | every => truthy_flag lhs && flag (flags provider) name
               | some => truthy_flag lhs || flag (flags provider) name
               end
      end.
Proof.
  intros Hstrat. unfold merge_provider. cbn [ctx_flags].
  rewrite merge_flags_self.
  - unfold merge_flag, mergeFlags. rewrite Hstrat.
    destruct (ctx_flags acc !! name) as [lhs |].
    + destruct strategy; rewrite lookup_insert_eq; simpl; unfold flag.
      * by rewrite andb_true_r.
      * by rewrite orb_false_r.
    + by rewrite lookup_insert_eq.
  - apply (bool_decide_unpack _). by vm_compute.
  - destruct (in_dec String.string_dec name (Object_keys flagMergingStrategy)) as [| Hn];
      [done |].
    apply ObjectFacts.obj_get_None_iff in Hn. congruence.
Qed.

(** Providers merged into an aggregate that already has the flag. *)
Lemma merged_flag_from (ps : list Provider) (name : string) (strategy : Strategy) :
  obj_get flagMergingStrategy name = Some strategy ->
  forall (acc : Ctx) (lhs : option bool),
    ctx_flags acc !! name = Some lhs ->
    form_flag (fold_left merge_provider ps acc) name
    = match strategy with
      | every => truthy_flag lhs && forallb (fun p => flag (flags p) name) ps
      | some => truthy_flag lhs || existsb (fun p => flag (flags p) name) ps
      end.
Proof.
  intros Hstrat. induction ps as [| p ps IH]; intros acc lhs Hacc.
  - simpl. unfold form_flag. rewrite Hacc.
    destruct strategy; [by rewrite andb_true_r | by rewrite orb_false_r].
  - cbn [fold_left]. erewrite IH.
    2:{ rewrite (merge_provider_flag _ _ _ _ Hstrat), Hacc. reflexivity. }
    destruct strategy; simpl; [by rewrite andb_assoc | by rewrite orb_assoc].
Qed.

(** The aggregate of a non-empty list of providers at a flag of the
    table. *)
Lemma merged_flag (p : Provider) (ps : list Provider) (name : string)
  (strategy : Strategy) :
  obj_get flagMergingStrategy name = Some strategy ->
  form_flag (fold_left merge_provider (p :: ps) (mkCtx ∅ ∅)) name
  = match strategy with
    | every => forallb (fun p => flag (flags p) name) (p :: ps)
    | some => existsb (fun p => flag (flags p) name) (p :: ps)
    end.
Proof.
  intros Hstrat. cbn [fold_left].
  erewrite (merged_flag_from ps name strategy Hstrat).
  2:{ rewrite (merge_provider_flag _ _ _ _ Hstrat). cbn [ctx_flags].
      rewrite lookup_empty. reflexivity. }
  done.
Qed.

(** C7, as amended.  For every non-empty set of registered fields the
    aggregate has, per flag of the merge table: pristine, untouched,
    valid and validated hold for the form exactly when they hold for all
    fields; dirty, touched, invalid and pending hold for the form exactly
    when they hold for some field. *)
Theorem form_flags_merge (refs : object Provider) :
  refs <> [] ->
  (forall name, In name ["pristine"; "untouched"; "valid"; "validated"] ->
     (form_flag (ctx refs) name = true
      <-> forall p, In p (values refs) -> flag (flags p) name = true))
  /\ (forall name, In name ["dirty"; "touched"; "invalid"; "pending"] ->
       (form_flag (ctx refs) name = true
        <-> exists p, In p (values refs) /\ flag (flags p) name = true)).
Proof.
  intros Hne. unfold ctx.
  destruct (values refs) as [| p ps] eqn:Hvals; [by destruct refs |].
  split; intros name Hin.
  - assert (Hstrat : obj_get flagMergingStrategy name = Some every).
    { simpl in Hin. decompose [or] Hin; subst; done. }
    rewrite (merged_flag p ps name every Hstrat), forallb_forall. done.
  - assert (Hstrat : obj_get flagMergingStrategy name = Some some).
    { simpl in Hin. decompose [or] Hin; subst; done. }
    rewrite (merged_flag p ps name some Hstrat), existsb_exists. done.
Qed.

Lemma form_flags_merge_witness :
  (form_flag (ctx Examples.two_fields) "valid" = true
   <-> forall p, In p (values Examples.two_fields) -> flag (flags p) "valid" = true)
  /\ (form_flag (ctx Examples.two_fields) "invalid" = true
      <-> exists p, In p (values Examples.two_fields) /\ flag (flags p) "invalid" = true)
  /\ form_flag (ctx Examples.two_fields) "valid" = false
  /\ form_flag (ctx Examples.two_fields) "validated" = false.
Proof.
  assert (Hne : Examples.two_fields <> []) by discriminate.
  split; [| split; [| split]].
  - apply (proj1 (form_flags_merge Examples.two_fields Hne) "valid").
    simpl. tauto.
  - apply (proj2 (form_flags_merge Examples.two_fields Hne) "invalid").
    simpl. tauto.
  - vm_compute; reflexivity.
  - vm_compute; reflexivity.
Defined.

(** C7 as it is written fails for a form with no field: every field
    there is valid, and the aggregate has no flag at all, so valid does
    not hold for the form. *)
Lemma empty_form_has_no_flags :
  (forall p, In p (values []) -> flag (flags p) "valid" = true)
  /\ form_flag (ctx []) "valid" = false
  /\ ctx_flags (ctx []) = ∅.
Proof. split; [| split]; [by intros p [] | reflexivity | reflexivity]. Qed.

End ObserverFacts.

(* ================================================================== *)
(** * Facts about the providers and useField                            *)
(* ================================================================== *)

Module ProviderJsFacts.
Import Flags ProviderJs.

Section Races.

Context (strict_equal : jsval -> jsval -> bool).

(** What [onValidate] chains on the run it starts. *)
Lemma onValidate_chain (w : World) :
  runs w !! fresh w = None ->
  runs (onValidate strict_equal w) !! fresh w
  = Some [PendingOff; ApplyResult; ApplyIfWaiting (fresh w)]
  /\ _waiting (field (onValidate strict_equal w)) = Some (fresh w).
Proof.
  intros Hfresh. unfold onValidate, validate, validateSilent, and_then. simpl.
  split; [| done].
  by rewrite !lookup_alter_eq, lookup_insert_eq.
Qed.

(** A run started by [onValidate] applies its result when it resolves,
    whatever [_waiting] holds then. *)
Lemma onValidate_run_applies (w : World) (p : nat) (result : Result) :
  runs w !! p = Some [PendingOff; ApplyResult; ApplyIfWaiting p] ->
  messages (field (resolve_run strict_equal p result w)) = errors result
  /\ flag (flags (field (resolve_run strict_equal p result w))) "validated" = true.
Proof.
  intros Hrun. unfold resolve_run. rewrite Hrun. cbn [field fold_left run_callback].
  set (c1 := set_flags [("pending", false)] (field w)).
  assert (Happlied : messages (applyResult strict_equal result c1) = errors result
                     /\ flag (flags (applyResult strict_equal result c1)) "validated" = true).
  { split; [done |]. unfold applyResult, set_flags, flag, setFlags.
    cbn [flags with_flags fold_left]. by rewrite lookup_insert_eq. }
  destruct (_waiting (applyResult strict_equal result c1)) as [q |]; [| done].
  destruct (Nat.eqb p q); [| done].
  split; [done |]. unfold with_waiting, applyResult, set_flags, flag, setFlags.
  cbn [flags with_flags fold_left]. by rewrite lookup_insert_eq.
Qed.

End Races.

(** C4 at the failing input.  Two validation events on a provider of
    provider.js; the run started last resolves first, with no error, and
    the run started first resolves after it with an error: the provider
    ends with the older run's error and is invalid. *)
Theorem stale_result_overwrites_newer :
  messages (field (run_events Examples.primitive_equal
                     (firstn 5 Examples.overlapping_runs) (a_new_world false)))
  = []
  /\ value (field (run_events Examples.primitive_equal
                    Examples.overlapping_runs (a_new_world false)))
     = VStr "ab"
  /\ messages (field (run_events Examples.primitive_equal
                       Examples.overlapping_runs (a_new_world false)))
     = ["too short"]
  /\ flag (flags (field (run_events Examples.primitive_equal
                           Examples.overlapping_runs (a_new_world false))))
       "invalid" = true.
Proof. repeat split; vm_compute; reflexivity. Qed.

End ProviderJsFacts.

Module ProviderTsFacts.
Import Flags ProviderTs.

Section Bookkeeping.

Context (strict_equal : jsval -> jsval -> bool).

(** [applyResult] leaves the derived flags in step with the others. *)
Lemma applyResult_derived_ok (r : Applied) (c : Provider) :
  derived_ok (flags (applyResult strict_equal r c)).
Proof.
  unfold derived_ok, flag, applyResult, set_flags, setFlags. cbn [flags with_flags fold_left].
  repeat (rewrite lookup_insert_eq || (rewrite lookup_insert_ne by done)).
  simpl. by rewrite !andb_true_r.
Qed.

(** After its [await], [validateSilent] writes valid and invalid and
    leaves passed and failed as they were. *)
Lemma validateSilent_finish_flags (result : RunResult) (c : Provider) :
  flag (flags (validateSilent_finish result c)) "valid" = run_valid result
  /\ flag (flags (validateSilent_finish result c)) "invalid" = negb (run_valid result)
  /\ flag (flags (validateSilent_finish result c)) "passed" = flag (flags c) "passed"
  /\ flag (flags (validateSilent_finish result c)) "failed" = flag (flags c) "failed"
  /\ flag (flags (validateSilent_finish result c)) "validated" = flag (flags c) "validated".
Proof.
  unfold flag, validateSilent_finish, set_flags, setFlags. cbn [flags with_flags fold_left].
  repeat split;
    repeat (rewrite lookup_insert_eq || (rewrite lookup_insert_ne by done)); done.
Qed.

End Bookkeeping.

(** C9 at the failing input.  On a provider of Provider.ts whose errors
    were set, a silent validation that finds the value valid leaves the
    field valid and validated but not passed, and failed but not
    invalid. *)
Theorem silent_validation_breaks_derived_flags :
  flag (flags (field (run_events Examples.primitive_equal
                        Examples.silent_after_errors (a_new_world false)))) "valid" = true
  /\ flag (flags (field (run_events Examples.primitive_equal
                          Examples.silent_after_errors (a_new_world false)))) "validated" = true
  /\ flag (flags (field (run_events Examples.primitive_equal
                          Examples.silent_after_errors (a_new_world false)))) "passed" = false
  /\ flag (flags (field (run_events Examples.primitive_equal
                          Examples.silent_after_errors (a_new_world false)))) "invalid" = false
  /\ flag (flags (field (run_events Examples.primitive_equal
                          Examples.silent_after_errors (a_new_world false)))) "failed" = true
  /\ ~ derived_ok (flags (field (run_events Examples.primitive_equal
                                   Examples.silent_after_errors (a_new_world false)))).
Proof.
  repeat split; try (vm_compute; reflexivity).
  intros [H _]. vm_compute in H. discriminate.
Qed.

(** The same state is reached with no call of [validateSilent] from
    outside: the silent validation of a reset resolves after a later
    validation. *)
Lemma reset_overtaken_breaks_derived_flags :
  ~ derived_ok (flags (field (run_events Examples.primitive_equal
                                Examples.reset_overtaken (a_new_world false)))).
Proof. intros [H _]. vm_compute in H. discriminate. Qed.

End ProviderTsFacts.

Module UseFieldFacts.
Import Flags UseField.

Lemma derive_derived_ok (m : Flags) : derived_ok (derive m).
Proof.
  unfold derived_ok, derive, flag.
  repeat (rewrite lookup_insert_eq || (rewrite lookup_insert_ne by done)). done.
Qed.

(** In useField.ts the derived flags are in step whenever the effect of
    [useMeta] has run, whatever happened before. *)
Lemma useField_derived_ok (strict_equal : jsval -> jsval -> bool) (evs : list Event)
  (initial : jsval) (by_schema : bool) :
  derived_ok (meta (field (run_events strict_equal (evs ++ [EffectRuns])
                             (a_new_world initial by_schema)))).
Proof.
  unfold run_events. rewrite fold_left_app. cbn [fold_left step flush field meta with_meta].
  apply derive_derived_ok.
Qed.

End UseFieldFacts.

(* ================================================================== *)
(** * More facts about validate.ts                                      *)
(* ================================================================== *)

Module ValidateMore.
Import Validate.

Section Loop.

Context (env : Collaborators) (field : FieldValidationContext) (value : jsval).

(** A test makes no call (the name is unknown) or the one call of its
    rule. *)
Lemma _test_calls_shape (rule : string) (params : Params) :
  calls (_test env field value rule params) = []
  \/ calls (_test env field value rule params) = [call_of env field value (rule, params)].
Proof.
  unfold _test, call_of. destruct (resolveRule env rule) as [validator |]; [| by left].
  right. simpl. destruct (validator _ _ _) as [r | e]; [| done]. by destruct r.
Qed.

(** The loop invokes the rules in their order, each at most once, and
    stops somewhere. *)
Lemma run_rules_calls_prefix (rules : object Params) :
  forall errs,
    calls (run_rules env field value rules errs)
    `prefix_of` map (call_of env field value) rules.
Proof.
  induction rules as [| [rule params] rest IH]; intros errs; [done |].
  cbn [run_rules map].
  destruct (_test env field value rule params) as [log [result | e]] eqn:Htest.
  - assert (Hlog : log = [call_of env field value (rule, params)]).
    { change log with (calls (log, @Fulfilled (option string) result)).
      rewrite <- Htest. apply (ValidateFacts._test_fulfilled_calls _ _ _ _ _ result).
      by rewrite Htest. }
    subst log. unfold await.
    destruct (truthy_error result) as [error |].
    + destruct (fvc_bails field).
      * simpl. apply prefix_cons, prefix_nil.
      * specialize (IH (errs ++ [error])).
        destruct (run_rules env field value rest (errs ++ [error])) as [log' r].
        simpl in *. by apply prefix_cons.
    + specialize (IH errs).
      destruct (run_rules env field value rest errs) as [log' r].
      simpl in *. by apply prefix_cons.
  - unfold await. simpl.
    destruct (_test_calls_shape rule params) as [H | H]; rewrite Htest in H; simpl in H;
      subst log; [apply prefix_nil | apply prefix_cons, prefix_nil].
Qed.

(** What the loop adds to [errors] are truthy strings, one per rule at
    most, and one at most when it bails. *)
Lemma run_rules_errors (rules : object Params) :
  forall errs es,
    outcome (run_rules env field value rules errs) = Fulfilled es ->
    exists added,
      es = errs ++ added
      /\ Forall (fun e => truthy_string e = true) added
      /\ (length added <= length rules)%nat
      /\ (fvc_bails field = true -> (length added <= 1)%nat).
Proof.
  induction rules as [| [rule params] rest IH]; intros errs es Hout.
  - simpl in Hout. injection Hout as <-. exists []. rewrite app_nil_r.
    repeat split; simpl; auto.
  - cbn [run_rules] in Hout.
    apply ValidateFacts.await_settles_fulfilled in Hout as (result & _ & Hout).
    destruct result as [error |]; simpl in Hout.
    + destruct (truthy_string error) eqn:Htruthy.
      * destruct (fvc_bails field) eqn:Hb.
        -- simpl in Hout. injection Hout as <-. exists [error].
           repeat split; simpl; auto with arith.
        -- apply IH in Hout as (added & -> & Hall & Hlen & _).
           exists (error :: added). rewrite <- app_assoc.
           repeat split; simpl; auto with arith. discriminate.
      * apply IH in Hout as (added & -> & Hall & Hlen & Hone).
        exists added. repeat split; simpl; auto with arith.
    + apply IH in Hout as (added & -> & Hall & Hlen & Hone).
      exists added. repeat split; simpl; auto with arith.
Qed.

(** Without bailing, a loop that ends has invoked every rule. *)
Lemma run_rules_collects_calls (rules : object Params) :
  fvc_bails field = false ->
  forall errs es,
    outcome (run_rules env field value rules errs) = Fulfilled es ->
    calls (run_rules env field value rules errs) = map (call_of env field value) rules.
Proof.
  intros Hb. induction rules as [| [rule params] rest IH]; intros errs es Hout; [done |].
  cbn [run_rules map] in *.
  destruct (_test env field value rule params) as [log [result | e]] eqn:Htest;
    [| discriminate].
  assert (Hlog : log = [call_of env field value (rule, params)]).
  { change log with (calls (log, @Fulfilled (option string) result)).
    rewrite <- Htest. apply (ValidateFacts._test_fulfilled_calls _ _ _ _ _ result).
    by rewrite Htest. }
  subst log. unfold await in *. rewrite Hb in *.
  destruct (truthy_error result) as [error |].
  - specialize (IH (errs ++ [error])).
    destruct (run_rules env field value rest (errs ++ [error])) as [log' r].
    simpl in *. f_equal. by eapply IH.
  - specialize (IH errs).
    destruct (run_rules env field value rest errs) as [log' r].
    simpl in *. f_equal. by eapply IH.
Qed.

(** A test whose rule settles: the call, and how the answer is read. *)
Lemma _test_settled (rule : string) (params : Params)
  (validator : ValidationRuleFunction) :
  resolveRule env rule = Some validator ->
  _test env field value rule params
  = ([call_of env field value (rule, params)],
     match validator value (fillTargetValues env params (fvc_formData field))
             (rule_context env field value rule params) with
     | Fulfilled (VStr s) => Fulfilled (Some s)
     | Fulfilled result =>
         Fulfilled (if truthy result then None
                    else Some (_generateFieldError env
                                 (rule_context env field value rule params)))
     | Rejected e => Rejected e
     end).
Proof.
  intros Hres. unfold _test, rule_context, call_of. rewrite Hres. cbv zeta.
  destruct (validator _ _ _) as [result | e]; [| done]. by destruct result.
Qed.

End Loop.

(** X1.  A run over named rules that resolves has only non-empty
    messages in its errors, at most one per rule, and at most one in all
    when it bails. *)
Theorem named_rules_errors_bounded (env : Collaborators) (value : jsval) (raw : RawRules)
  (options : ValidationOptions) (r : ValidationResult) :
  outcome (validate env value (NamedRules raw) options) = Fulfilled r ->
  Forall (fun e => e <> EmptyString) (errors r)
  /\ (length (errors r) <= length (normalizeRules env raw))%nat
  /\ (default true (opt_bails options) = true -> (length (errors r) <= 1)%nat).
Proof.
  intros Hout. rewrite ValidateFacts.validate_named_rules in Hout.
  apply ValidateFacts.await_settles_fulfilled in Hout as (es & Hrun & Hres).
  simpl in Hres. injection Hres as <-. simpl.
  apply run_rules_errors in Hrun as (added & -> & Hall & Hlen & Hone).
  simpl. split; [| split; [done | exact Hone]].
  eapply Forall_impl; [exact Hall |]. simpl. intros e He ->. discriminate.
Qed.

Lemma named_rules_errors_bounded_witness :
  outcome (validate Examples.plain (VStr EmptyString)
             (NamedRules (RulesString "required|min:3")) Examples.no_options)
  = Fulfilled (mkResult ["This field is required"] false)
  /\ Forall (fun e => e <> EmptyString) ["This field is required"]
  /\ (length ["This field is required"] <= 1)%nat.
Proof.
  split; [reflexivity |].
  split.
  - exact (proj1 (named_rules_errors_bounded Examples.plain (VStr EmptyString)
                    (RulesString "required|min:3") Examples.no_options
                    (mkResult ["This field is required"] false) eq_refl)).
  - exact (proj2 (proj2 (named_rules_errors_bounded Examples.plain (VStr EmptyString)
                           (RulesString "required|min:3") Examples.no_options
                           (mkResult ["This field is required"] false) eq_refl))
             eq_refl).
Defined.

(** X2.  The rules of a run are invoked in declaration order, each at
    most once and none after the run has stopped: the invocations are a
    prefix of the rule list; when [bails] is false and the run resolves,
    they are the whole list. *)
Theorem rules_invoked_in_order (env : Collaborators) (value : jsval) (raw : RawRules)
  (options : ValidationOptions) :
  calls (validate env value (NamedRules raw) options)
  `prefix_of` map (call_of env (field_context (NamedRules raw) options) value)
                (normalizeRules env raw)
  /\ (forall r,
        opt_bails options = Some false ->
        outcome (validate env value (NamedRules raw) options) = Fulfilled r ->
        calls (validate env value (NamedRules raw) options)
        = map (call_of env (field_context (NamedRules raw) options) value)
            (normalizeRules env raw)).
Proof.
  rewrite ValidateFacts.validate_named_rules.
  set (field := field_context (NamedRules raw) options).
  pose proof (run_rules_calls_prefix env field value (normalizeRules env raw) []) as Hpre.
  split.
  - destruct (run_rules env field value (normalizeRules env raw) []) as [log [es | e]];
      simpl in *; [by rewrite app_nil_r | done].
  - intros r Hb Hout.
    apply ValidateFacts.await_settles_fulfilled in Hout as (es & Hrun & _).
    assert (Hfalse : fvc_bails field = false) by (unfold field, field_context; by rewrite Hb).
    pose proof (run_rules_collects_calls env field value _ Hfalse [] es Hrun) as Hcalls.
    destruct (run_rules env field value (normalizeRules env raw) []) as [log [es' | e]];
      simpl in *; [| done]. by rewrite app_nil_r.
Qed.

Lemma rules_invoked_in_order_witness :
  calls (validate Examples.plain (VStr "ab")
           (NamedRules (RulesString "required|min:3|is:ab"))
           (mkOptions None None (Some false)))
  = [CallRule "required" (VStr "ab") (ParamList []);
     CallRule "min" (VStr "ab") (ParamList [VStr "3"]);
     CallRule "is" (VStr "ab") (ParamList [VStr "ab"])].
Proof.
  exact (proj2 (rules_invoked_in_order Examples.plain (VStr "ab")
                  (RulesString "required|min:3|is:ab") (mkOptions None None (Some false)))
           (mkResult ["Field is invalid"] false) eq_refl eq_refl).
Defined.

(** X3.  A rule whose promise rejects is not caught: when the rules
    before it pass, the run rejects with the very same value, after
    having invoked the rules up to and including that one. *)
Theorem rule_exception_propagates (env : Collaborators) (value : jsval) (raw : RawRules)
  (options : ValidationOptions) (pre post : object Params) (name : string)
  (params : Params) (validator : ValidationRuleFunction) (e : Thrown) :
  normalizeRules env raw = pre ++ (name, params) :: post ->
  resolveRule env name = Some validator ->
  validator value
    (fillTargetValues env params (fvc_formData (field_context (NamedRules raw) options)))
    (rule_context env (field_context (NamedRules raw) options) value name params)
  = Rejected e ->
  Forall (fun entry =>
            rule_reports env (field_context (NamedRules raw) options) value entry None)
    pre ->
  validate env value (NamedRules raw) options
  = (map (call_of env (field_context (NamedRules raw) options) value)
       (pre ++ [(name, params)]),
     Rejected e).
Proof.
  intros Hrules Hres Hrej Hpre. rewrite ValidateFacts.validate_named_rules, Hrules.
  rewrite (ValidateFacts.run_rules_passing_prefix env _ value pre _ [] Hpre).
  cbn [run_rules]. rewrite (_test_settled _ _ _ _ _ _ Hres), Hrej.
  simpl. by rewrite map_app.
Qed.

Lemma rule_exception_propagates_witness :
  validate Examples.plain (VStr "x")
    (NamedRules (RulesString "required|broken|min:3")) Examples.no_options
  = ([CallRule "required" (VStr "x") (ParamList []);
      CallRule "broken" (VStr "x") (ParamList [])],
     Rejected (new_Error "rule crashed")).
Proof.
  apply (rule_exception_propagates Examples.plain (VStr "x")
           (RulesString "required|broken|min:3") Examples.no_options
           [("required", ParamList [])] [("min", ParamList [VStr "3"])]
           "broken" (ParamList []) Examples.broken (new_Error "rule crashed")).
  - reflexivity.
  - reflexivity.
  - reflexivity.
  - repeat constructor. eexists; split; vm_compute; reflexivity.
Defined.

(** X4.  Whatever the kind of rule expression, a result that [validate]
    resolves with is valid exactly when it has no errors. *)
Theorem resolved_result_valid_iff_no_errors (env : Collaborators) (value : jsval)
  (rules : RuleExpression) (options : ValidationOptions) (r : ValidationResult) :
  outcome (validate env value rules options) = Fulfilled r ->
  (valid r = true <-> errors r = []).
Proof.
  unfold validate. intros Hout.
  apply ValidateFacts.await_settles_fulfilled in Hout as (es & _ & Hres).
  simpl in Hres. injection Hres as <-. simpl. by destruct es.
Qed.

Lemma resolved_result_valid_iff_no_errors_witness :
  outcome (validate Examples.plain (VStr "ab") (SchemaRule Examples.strict_schema)
             (mkOptions None None (Some false)))
  = Fulfilled (mkResult ["too short"; "not an email"] false)
  /\ (false = true <-> ["too short"; "not an email"] = []).
Proof.
  split; [reflexivity |].
  exact (resolved_result_valid_iff_no_errors Examples.plain (VStr "ab")
           (SchemaRule Examples.strict_schema) (mkOptions None None (Some false))
           (mkResult ["too short"; "not an email"] false) eq_refl).
Defined.

(** X5.  The empty string as a rule's answer: from a function used as
    the rule it is an error, the result is invalid with the empty
    message; from a named rule the loop takes it for no error and the
    result is valid. *)
Theorem empty_message_function_vs_named_rule (env : Collaborators) (value : jsval)
  (options : ValidationOptions) :
  (forall f,
     f value (mkFieldContext (fvc_name (field_context (FunctionRule f) options)) value
                (fvc_formData (field_context (FunctionRule f) options)) None)
     = Fulfilled (VStr EmptyString) ->
     validate env value (FunctionRule f) options
     = ([CallFunction value], Fulfilled (mkResult [EmptyString] false)))
  /\ (forall raw name params validator,
        normalizeRules env raw = [(name, params)] ->
        resolveRule env name = Some validator ->
        validator value
          (fillTargetValues env params (fvc_formData (field_context (NamedRules raw) options)))
          (rule_context env (field_context (NamedRules raw) options) value name params)
        = Fulfilled (VStr EmptyString) ->
        outcome (validate env value (NamedRules raw) options)
        = Fulfilled (mkResult [] true)).
Proof.
  split.
  - intros f Hf. unfold validate, _validate, field_context in *. cbv zeta in *.
    cbn [fvc_rules fvc_name fvc_formData] in *. by rewrite Hf.
  - intros raw name params validator Hrules Hres Hval.
    rewrite ValidateFacts.validate_named_rules, Hrules. cbn [run_rules].
    by rewrite (_test_settled _ _ _ _ _ _ Hres), Hval.
Qed.

Lemma empty_message_function_vs_named_rule_witness :
  validate Examples.plain VNull (FunctionRule (fun _ _ => Fulfilled (VStr EmptyString)))
    Examples.no_options
  = ([CallFunction VNull], Fulfilled (mkResult [EmptyString] false)).
Proof.
  exact (proj1 (empty_message_function_vs_named_rule Examples.plain VNull
                  Examples.no_options)
           (fun _ _ => Fulfilled (VStr EmptyString)) eq_refl).
Defined.

End ValidateMore.

(* ================================================================== *)
(** * More facts about locators and schema validation                  *)
(* ================================================================== *)

Module SchemaMore.
Import Validate ObjectFacts.

(** Reading back keys of a well-formed object gives its entries under
    those keys. *)
Lemma entries_by_key {V W : Type} (g : option V -> W) (keep : string -> bool)
  (o : object V) :
  NoDup (Object_keys o) ->
  map (fun k => (k, g (obj_get o k))) (List.filter keep (Object_keys o))
  = map (fun kv => (fst kv, g (Some (snd kv))))
      (List.filter (fun kv => keep (fst kv)) o).
Proof.
  induction o as [| [k v] o IH]; intros Hnd; [done |].
  apply NoDup_cons in Hnd as [Hk Hnd].
  assert (Htail : map (fun k' => (k', g (obj_get ((k, v) :: o) k')))
                    (List.filter keep (Object_keys o))
                  = map (fun kv => (fst kv, g (Some (snd kv))))
                      (List.filter (fun kv => keep (fst kv)) o)).
  { rewrite <- (IH Hnd). apply map_ext_in. intros k' Hin.
    apply filter_In in Hin as [Hin _]. simpl.
    destruct (String.eqb_spec k k') as [-> | Hne]; [| done].
    destruct Hk. by apply list_elem_of_In. }
  cbn [Object_keys map List.filter fst]. fold (Object_keys o).
  destruct (keep k); [| exact Htail].
  cbn [map fst snd]. rewrite Htail. simpl. by rewrite String.eqb_refl.
Qed.

(** X6.  On a map of parameters with distinct keys the result of
    [fillTargetValues] has the entries of the map in the same order,
    each value resolved, an entry under the own key [__proto__] apart,
    which is left out; parameters that hold no locator come back as
    they are, whatever the cross-field table is: an array always, a map
    when it has no key [__proto__]. *)
Theorem fillTargetValues_entrywise (env : Collaborators) (crossTable : FormData) :
  (forall o : object jsval,
     NoDup (Object_keys o) ->
     fillTargetValues env (ParamMap o) crossTable
     = ParamMap (map (fun kv => (fst kv, normalize env crossTable (snd kv)))
                   (List.filter (fun kv => makes_own_property (fst kv)) o)))
  /\ (forall l : list jsval,
        Forall (fun v => isLocator v = false) l ->
        fillTargetValues env (ParamList l) crossTable = ParamList l)
  /\ (forall o : object jsval,
        NoDup (Object_keys o) ->
        ~ In "__proto__" (Object_keys o) ->
        Forall (fun kv => isLocator (snd kv) = false) o ->
        fillTargetValues env (ParamMap o) crossTable = ParamMap o).
Proof.
  assert (Hmap : forall o : object jsval,
            NoDup (Object_keys o) ->
            fillTargetValues env (ParamMap o) crossTable
            = ParamMap (map (fun kv => (fst kv, normalize env crossTable (snd kv)))
                          (List.filter (fun kv => makes_own_property (fst kv)) o))).
  { intros o Hnd. rewrite SchemaFacts.fill_map_as_assignments. f_equal.
    rewrite assign_all_fresh.
    - simpl.
      exact (entries_by_key (fun x => normalize env crossTable (default VUndefined x))
               makes_own_property o Hnd).
    - simpl. rewrite map_map, map_id. apply NoDup_ListNoDup.
      apply List.NoDup_filter. by apply NoDup_ListNoDup. }
  split; [exact Hmap | split].
  - intros l Hall. simpl. f_equal.
    induction Hall as [| v l Hv _ IH]; [done |]. simpl.
    by rewrite IH, SchemaFacts.normalize_not_locator.
  - intros o Hnd Hno Hall. rewrite (Hmap o Hnd). f_equal.
    clear Hnd. induction Hall as [| [k v] o Hv _ IH]; [done |]. simpl in *.
    assert (Hk : makes_own_property k = true).
    { apply SchemaFacts.makes_own_property_iff. intros ->. apply Hno. by left. }
    rewrite Hk. simpl. rewrite IH, SchemaFacts.normalize_not_locator; [done | done |].
    intros Hin. apply Hno. by right.
Qed.

Lemma fillTargetValues_entrywise_witness :
  fillTargetValues Examples.plain
    (ParamMap [("min", VStr "0"); ("__proto__", VNum 1); ("max", VFun (Some "maxValue"))]) ∅
  = ParamMap [("min", VStr "0"); ("max", VStr "maxValue")]
  /\ fillTargetValues Examples.plain (ParamMap [("min", VStr "0"); ("max", VNum 4)]) ∅
     = ParamMap [("min", VStr "0"); ("max", VNum 4)].
Proof.
  split.
  - etransitivity.
    + apply (proj1 (fillTargetValues_entrywise Examples.plain ∅)
               [("min", VStr "0"); ("__proto__", VNum 1); ("max", VFun (Some "maxValue"))]).
      apply (bool_decide_unpack _). by vm_compute.
    + vm_compute. reflexivity.
  - apply (proj2 (proj2 (fillTargetValues_entrywise Examples.plain ∅))).
    + apply (bool_decide_unpack _). by vm_compute.
    + simpl. intros [H | [H | []]]; discriminate.
    + by repeat constructor.
Defined.

Lemma obj_set_not_empty {V} (o : object V) (k : string) (v : V) : obj_set o k v <> [].
Proof. destruct o as [| [k' v'] o]; simpl; [done |]. by destruct (String.eqb k' k). Qed.

Lemma assign_all_empty_iff {V} (es : list (string * V)) :
  is_empty_list (assign_all es []) = is_empty_list es.
Proof.
  destruct es as [| [k v] es] using rev_ind; [done |].
  rewrite assign_all_snoc.
  pose proof (obj_set_not_empty (assign_all es []) k v) as Hne.
  destruct (obj_set _ k v); [done |]. by destruct es.
Qed.

(** The keys under which [schema_results] keeps an entry are the paths
    of the errors. *)
Lemma schema_results_keys (errs : list Thrown) (path : string) :
  In path (Object_keys (schema_results errs))
  <-> exists e, In e errs /\ default "undefined" (err_path e) = path.
Proof.
  rewrite SchemaFacts.schema_results_as_assignments.
  assert (Hkey : forall o' : object ValidationResult,
            In path (Object_keys o') <-> obj_get o' path <> None).
  { intros o'. rewrite obj_get_None_iff. split; [tauto |]. intros Hnn.
    destruct (in_dec String.string_dec path (Object_keys o')); tauto. }
  rewrite Hkey, assign_all_get. simpl.
  induction errs as [| e es IH] using rev_ind.
  - simpl. split; [done | by intros (e & [] & _)].
  - rewrite map_app, List.filter_app. simpl.
    destruct (String.eqb_spec (default "undefined" (err_path e)) path) as [Heq | Hne].
    + rewrite last_snoc. split; [| done]. intros _. exists e. split; [| done].
      apply in_or_app. right. by left.
    + rewrite app_nil_r, IH. split.
      * intros (e' & Hin & Hp). exists e'. split; [| done]. apply in_or_app. by left.
      * intros (e' & Hin & Hp). apply in_app_or in Hin as [Hin | [<- | []]];
          [by exists e' | done].
Qed.

(** X7.  After a rejection named ValidationError, the result of
    [validateYupSchema] is valid exactly when the rejection has no inner
    error, and the own keys of its results are the paths of the inner
    errors, the path [__proto__] apart, under which no own entry is
    made.  So the result is valid exactly when it has no per-path
    results, provided no inner error has the path [__proto__].  A
    schema that accepts the values gives the valid result with no
    entries. *)
Theorem validateYupSchema_results (schema : YupValidator FormData) (values : FormData) :
  (forall err,
     yup_validate schema values false = Rejected err ->
     name_is err "ValidationError" = true ->
     exists r,
       outcome (validateYupSchema schema values) = Fulfilled r
       /\ form_valid r = is_empty_list (default [] (err_inner err))
       /\ (forall path,
             In path (result_paths (form_results r))
             <-> path <> "__proto__"
                 /\ exists e, In e (default [] (err_inner err))
                              /\ default "undefined" (err_path e) = path)
       /\ (Forall (fun e => default "undefined" (err_path e) <> "__proto__")
             (default [] (err_inner err)) ->
           form_valid r = is_empty_list (result_paths (form_results r))))
  /\ (yup_validate schema values false = Fulfilled tt ->
      validateYupSchema schema values
      = ([CallSchema false], Fulfilled (mkFormResult true []))).
Proof.
  split.
  - intros err Hrej Hname. unfold validateYupSchema. rewrite Hrej. simpl.
    rewrite Hname. simpl. eexists. split; [reflexivity |]. cbn [form_valid form_results].
    split; [done |]. split.
    + intros path. unfold result_paths. rewrite filter_In, schema_results_keys.
      rewrite SchemaFacts.makes_own_property_iff. tauto.
    + intros Hno. unfold result_paths. rewrite SchemaFacts.own_keys_all.
      * rewrite SchemaFacts.schema_results_as_assignments.
        transitivity
          (is_empty_list
             (assign_all
                (map (fun e => (default "undefined" (err_path e),
                                mkResult (err_errors e) (is_empty_list (err_errors e))))
                   (default [] (err_inner err)))
                [])).
        -- rewrite assign_all_empty_iff. by destruct (default [] (err_inner err)).
        -- by destruct (assign_all _ []).
      * intros Hin. apply schema_results_keys in Hin as (e & Hin & Hp).
        rewrite Forall_forall in Hno. by apply (Hno e); [apply list_elem_of_In |].
  - intros Hok. unfold validateYupSchema. by rewrite Hok.
Qed.

Lemma validateYupSchema_results_witness :
  exists r,
    outcome (validateYupSchema Examples.two_fields_schema ∅) = Fulfilled r
    /\ form_valid r = false
    /\ (In "email" (result_paths (form_results r))
        <-> "email" <> "__proto__"
            /\ exists e,
                 In e [MkThrown (Some "ValidationError") "email is required"
                         ["email is required"] (Some "email") (Some []);
                       MkThrown (Some "ValidationError") "password is required"
                         ["password is required"] (Some "password") (Some [])]
                 /\ default "undefined" (err_path e) = "email").
Proof.
  destruct (proj1 (validateYupSchema_results Examples.two_fields_schema ∅)
              _ eq_refl eq_refl) as (r & Hout & Hvalid & Hpaths & _).
  exists r. split; [exact Hout |]. split; [exact Hvalid | exact (Hpaths "email")].
Defined.

End SchemaMore.

(* ================================================================== *)
(** * More facts about observer.js                                      *)
(* ================================================================== *)

Module ObserverMore.
Import Flags Observer ObjectFacts.

Lemma forallb_permutation {A} (f : A -> bool) (l1 l2 : list A) :
  Permutation l1 l2 -> forallb f l1 = forallb f l2.
Proof.
  induction 1 as [| x l1 l2 _ IH | x y l | l1 l2 l3 _ IH1 _ IH2]; simpl.
  - done.
  - by rewrite IH.
  - by destruct (f x), (f y).
  - by rewrite IH1.
Qed.

Lemma existsb_permutation {A} (f : A -> bool) (l1 l2 : list A) :
  Permutation l1 l2 -> existsb f l1 = existsb f l2.
Proof.
  induction 1 as [| x l1 l2 _ IH | x y l | l1 l2 l3 _ IH1 _ IH2]; simpl.
  - done.
  - by rewrite IH.
  - by destruct (f x), (f y).
  - by rewrite IH1.
Qed.

Lemma strategy_of_table_flag (name : string) :
  In name (Object_keys flagMergingStrategy) ->
  exists strategy, obj_get flagMergingStrategy name = Some strategy.
Proof.
  intros Hin. destruct (obj_get flagMergingStrategy name) as [s |] eqn:E; [by exists s |].
  by apply obj_get_None_iff in E.
Qed.

(** The aggregate of a list of providers at a flag of the table. *)
Lemma aggregate_of_list (ps : list Provider) (name : string) (strategy : Strategy) :
  obj_get flagMergingStrategy name = Some strategy ->
  form_flag (fold_left merge_provider ps (mkCtx ∅ ∅)) name
  = match ps with
    | [] => false
    | _ :: _ =>
        match strategy with
        | every => forallb (fun p => flag (flags p) name) ps
        | some => existsb (fun p => flag (flags p) name) ps
        end
    end.
Proof.
  intros Hstrat. destruct ps as [| p ps]; [done |].
  by apply ObserverFacts.merged_flag.
Qed.

(** X8.  The aggregate flags of the form do not depend on the order in
    which the fields are registered. *)
Theorem aggregate_order_independent (refs1 refs2 : object Provider) (name : string) :
  Permutation refs1 refs2 ->
  In name (Object_keys flagMergingStrategy) ->
  form_flag (ctx refs1) name = form_flag (ctx refs2) name.
Proof.
  intros Hperm Hin. apply strategy_of_table_flag in Hin as [strategy Hstrat].
  unfold ctx. rewrite !(aggregate_of_list _ name strategy Hstrat).
  assert (Hvals : Permutation (values refs1) (values refs2))
    by (by apply Permutation_map).
  destruct (values refs1) as [| p1 ps1] eqn:E1, (values refs2) as [| p2 ps2] eqn:E2.
  - done.
  - by apply Permutation_nil in Hvals.
  - symmetry in Hvals. by apply Permutation_nil in Hvals.
  - destruct strategy;
      [by apply forallb_permutation | by apply existsb_permutation].
Qed.

Lemma aggregate_order_independent_witness :
  form_flag (ctx Examples.two_fields) "valid"
  = form_flag (ctx (rev Examples.two_fields)) "valid".
Proof.
  apply aggregate_order_independent.
  - apply Permutation_rev.
  - simpl. tauto.
Defined.



(** X10.  The errors of the aggregate are keyed by vid: under a vid
    stand the messages of the field registered last with that vid, and a
    vid of no registered field has no entry. *)
Theorem aggregate_errors_by_vid (refs : object Provider) (v : string) :
  ctx_errors (ctx refs) !! v
  = messages <$> last (List.filter (fun p => String.eqb (vid p) v) (values refs)).
Proof.
  unfold ctx. induction (values refs) as [| p ps IH] using rev_ind; [done |].
  rewrite fold_left_app, List.filter_app. simpl.
  destruct (String.eqb_spec (vid p) v) as [-> | Hne].
  - by rewrite lookup_insert_eq, last_snoc.
  - by rewrite (lookup_insert_ne _ _ _ _ Hne), app_nil_r, IH.
Qed.

Lemma obj_set_keys_old {V} (o : object V) (k : string) (v : V) :
  In k (Object_keys o) -> Object_keys (obj_set o k v) = Object_keys o.
Proof.
  induction o as [| [k' v'] o IH]; simpl; [done |].
  destruct (String.eqb_spec k' k) as [-> | Hne]; [done |].
  intros [? | Hin]; [done |]. simpl. by rewrite IH.
Qed.

Lemma unsubscribe_keys (refs : object Provider) (v : string) :
  Object_keys (unsubscribe refs v)
  = List.filter (fun k => negb (String.eqb k v)) (Object_keys refs).
Proof.
  unfold unsubscribe. induction refs as [| [k p] refs IH]; [done |]. simpl.
  destruct (String.eqb k v); simpl; by rewrite IH.
Qed.



(** The association list of the registry stays well formed: with one
    entry per vid it keeps one entry per vid when a field is registered,
    also under a vid in use (the entry is replaced), and when a vid is
    unregistered. *)
Theorem registry_keeps_one_entry_per_vid (refs : object Provider) :
  NoDup (Object_keys refs) ->
  (forall p, NoDup (Object_keys (subscribe refs p)))
  /\ (forall v, NoDup (Object_keys (unsubscribe refs v))).
Proof.
  intros Hnd. split.
  - intros p. unfold subscribe.
    destruct (in_dec String.string_dec (vid p) (Object_keys refs)) as [Hin | Hfresh].
    + by rewrite (obj_set_keys_old _ _ _ Hin).
    + rewrite (obj_set_keys_new _ _ _ Hfresh). apply NoDup_app.
      split; [done |]. split; [| apply NoDup_singleton].
      intros k Hk Hk'. apply list_elem_of_singleton in Hk'. subst k.
      by apply list_elem_of_In in Hk.
  - intros v. rewrite unsubscribe_keys. apply NoDup_ListNoDup.
    apply List.NoDup_filter. by apply NoDup_ListNoDup.
Qed.

Lemma registry_keeps_one_entry_per_vid_witness :
  NoDup (Object_keys (subscribe Examples.two_fields Examples.field_a)).
Proof.
  assert (Hnd : NoDup (Object_keys Examples.two_fields)).
  { apply (bool_decide_unpack _). by vm_compute. }
  apply (proj1 (registry_keeps_one_entry_per_vid Examples.two_fields Hnd)).
Defined.

End ObserverMore.

(* ================================================================== *)
(** * Facts about the registry of Provider.ts                           *)
(* ================================================================== *)

Module RegistryFacts.
Import Registry.

Lemma step_keeps_filing (page : Page) (ev : Event) :
  filed_under_own_id page -> filed_under_own_id (step page ev).
Proof.
  intros Hwf. destruct ev as [h v n | h v n | h | h | h | h]; simpl.
  - unfold create. destruct (vms page !! h) as [vm |] eqn:Hh; [done |].
    intros k h' Hk. cbn [refs vms] in *. destruct (Hwf k h' Hk) as (vm' & Hvm' & Hid).
    exists vm'. split; [| done]. rewrite lookup_insert_ne; [done | congruence].
  - unfold set_props. destruct (vms page !! h) as [vm |] eqn:Hh; [| done].
    intros k h' Hk. cbn [refs vms] in *. destruct (Hwf k h' Hk) as (vm' & Hvm' & Hid).
    destruct (decide (h' = h)) as [-> | Hne].
    + eexists. rewrite lookup_insert_eq. split; [done |]. simpl. congruence.
    + exists vm'. by rewrite lookup_insert_ne.
  - unfold updateRenderingContextRefs. destruct (vms page !! h) as [vm |] eqn:Hh; [| done].
    destruct (extractId vm (PROVIDER_COUNTER page)) as [providedId counter].
    destruct (isDeactivated vm || _) eqn:Hearly; [exact Hwf |].
    intros k h' Hk. cbn [refs vms] in *. unfold subscribe, unsubscribe in *. cbn [id] in *.
    apply lookup_insert_Some in Hk as [[<- <-] | [Hkne Hk]].
    { eexists. rewrite lookup_insert_eq. by split. }
    assert (Hold : refs page !! k = Some h'
                   /\ (refs page !! id vm = Some h -> id vm <> providedId -> k <> id vm)).
    { destruct (negb (String.eqb (id vm) providedId)
                && bool_decide (refs page !! id vm = Some h)) eqn:Hdel.
      - apply lookup_delete_Some in Hk as [Hne Hk].
        split; [done | congruence].
      - split; [done |]. intros Hin Hdiff. exfalso.
        apply andb_false_iff in Hdel as [Hdel | Hdel].
        + apply negb_false_iff, String.eqb_eq in Hdel. done.
        + by rewrite bool_decide_eq_false in Hdel. }
    destruct Hold as [Hk' Hdeleted].
    destruct (Hwf k h' Hk') as (vm' & Hvm' & Hid).
    destruct (decide (h' = h)) as [-> | Hne].
    + exfalso. assert (vm' = vm) by congruence. subst vm' k.
      apply (Hdeleted Hk'); [congruence | done].
    + exists vm'. by rewrite lookup_insert_ne.
  - unfold activated. destruct (vms page !! h) as [vm |] eqn:Hh; [| done].
    intros k h' Hk. cbn [refs vms] in *. unfold subscribe in *. cbn [id] in *.
    apply lookup_insert_Some in Hk as [[<- <-] | [Hkne Hk]].
    { eexists. rewrite lookup_insert_eq. by split. }
    destruct (Hwf k h' Hk) as (vm' & Hvm' & Hid).
    destruct (decide (h' = h)) as [-> | Hne]; [congruence |].
    exists vm'. by rewrite lookup_insert_ne.
  - unfold deactivated. destruct (vms page !! h) as [vm |] eqn:Hh; [| done].
    intros k h' Hk. cbn [refs vms] in *. unfold unsubscribe in *.
    apply lookup_delete_Some in Hk as [Hkne Hk].
    destruct (Hwf k h' Hk) as (vm' & Hvm' & Hid).
    destruct (decide (h' = h)) as [-> | Hne]; [congruence |].
    exists vm'. by rewrite lookup_insert_ne.
  - unfold beforeDestroy. destruct (vms page !! h) as [vm |] eqn:Hh; [| done].
    intros k h' Hk. cbn [refs vms] in *. unfold unsubscribe in *.
    apply lookup_delete_Some in Hk as [Hkne Hk].
    destruct (Hwf k h' Hk) as (vm' & Hvm' & Hid).
    destruct (decide (h' = h)) as [-> | Hne]; [congruence |].
    exists vm'. by rewrite lookup_delete_ne.
Qed.

Lemma run_keeps_filing (evs : list Event) :
  forall page, filed_under_own_id page -> filed_under_own_id (run_events evs page).
Proof.
  unfold run_events. induction evs as [| ev evs IH]; intros page Hwf; [done |].
  simpl. apply IH. by apply step_keeps_filing.
Qed.

(** X12.  Whatever providers are created, rendered, given new props,
    deactivated, activated and destroyed, every entry of the observer's
    refs is filed under the current id of the instance it holds; so an
    instance is never registered under two identifiers. *)
Theorem registry_files_each_instance_once (evs : list Event) :
  filed_under_own_id (run_events evs empty_page)
  /\ (forall k1 k2 h,
        refs (run_events evs empty_page) !! k1 = Some h ->
        refs (run_events evs empty_page) !! k2 = Some h ->
        k1 = k2).
Proof.
  assert (Hwf : filed_under_own_id (run_events evs empty_page)).
  { apply run_keeps_filing. intros k h Hk. unfold empty_page in Hk. simpl in Hk.
    by rewrite lookup_empty in Hk. }
  split; [exact Hwf |]. intros k1 k2 h H1 H2.
  destruct (Hwf k1 h H1) as (vm1 & Hvm1 & <-).
  destruct (Hwf k2 h H2) as (vm2 & Hvm2 & <-). congruence.
Qed.

Lemma generated_id_truthy (c : nat) : truthy_string ("_vee_" +:+ pretty c) = true.
Proof. reflexivity. Qed.

Lemma generated_id_inj (c1 c2 : nat) :
  "_vee_" +:+ pretty c1 = "_vee_" +:+ pretty c2 -> c1 = c2.
Proof.
  intros Heq. apply (inj pretty).
  change (String "_" (String "v" (String "e" (String "e" (String "_" (pretty c1)))))
          = String "_" (String "v" (String "e" (String "e" (String "_" (pretty c2))))))
    in Heq.
  by injection Heq.
Qed.

(** With the id it has just been given, an instance is given the same
    id again, and the counter stays. *)
Lemma extractId_stable (vm : Vm) (c c' : nat) (providedId : string) (d : bool) :
  extractId vm c = (providedId, c') ->
  extractId (mkVm (vid vm) (name vm) providedId d) c' = (providedId, c').
Proof.
  unfold extractId. simpl.
  destruct (truthy_string (vid vm)); [by intros [= <- <-] |].
  destruct (truthy_option (name vm)); [by intros [= <- <-] |].
  destruct (truthy_string (id vm)) eqn:Hid.
  - intros [= <- <-]. by rewrite Hid.
  - intros [= <- <-]. by rewrite generated_id_truthy.
Qed.

(** The counter moves only when an id is generated, and a generated id
    is not the id the instance has. *)
Lemma extractId_counter (vm : Vm) (c c' : nat) (providedId : string) :
  extractId vm c = (providedId, c') ->
  c' = c \/ id vm <> providedId.
Proof.
  unfold extractId.
  destruct (truthy_string (vid vm)); [intros [= <- <-]; by left |].
  destruct (truthy_option (name vm)); [intros [= <- <-]; by left |].
  destruct (truthy_string (id vm)) eqn:Hid; [intros [= <- <-]; by left |].
  intros [= <- <-]. right. intros Heq. rewrite Heq in Hid. discriminate.
Qed.



(** A render of an instance that is not deactivated, spelled out. *)
Lemma render_of_active (h : nat) (page : Page) (vm : Vm) (providedId : string)
  (counter : nat) :
  vms page !! h = Some vm ->
  isDeactivated vm = false ->
  extractId vm (PROVIDER_COUNTER page) = (providedId, counter) ->
  updateRenderingContextRefs h page
  = if String.eqb (id vm) providedId && bool_decide (is_Some (refs page !! id vm))
    then mkPage (vms page) (refs page) counter
    else mkPage (<[h := mkVm (vid vm) (name vm) providedId false]> (vms page))
           (<[providedId := h]>
              (if negb (String.eqb (id vm) providedId)
                  && bool_decide (refs page !! id vm = Some h)
               then delete (id vm) (refs page) else refs page))
           counter.
Proof.
  intros Hh Hact Hid. unfold updateRenderingContextRefs. by rewrite Hh, Hid, Hact.
Qed.

(** X14.  Rendering again changes nothing: for an instance that is not
    deactivated, a second render in a row leaves the instances, the
    registry and the counter as the first render left them. *)
Theorem render_is_idempotent (h : nat) (page : Page) :
  (forall vm, vms page !! h = Some vm -> isDeactivated vm = false) ->
  updateRenderingContextRefs h (updateRenderingContextRefs h page)
  = updateRenderingContextRefs h page.
Proof.
  intros Hactive.
  destruct (vms page !! h) as [vm |] eqn:Hh.
  2:{ unfold updateRenderingContextRefs. by rewrite !Hh. }
  pose proof (Hactive vm eq_refl) as Hact. clear Hactive.
  destruct (extractId vm (PROVIDER_COUNTER page)) as [providedId counter] eqn:Hid.
  rewrite (render_of_active h page vm providedId counter Hh Hact Hid).
  destruct (String.eqb (id vm) providedId && bool_decide (is_Some (refs page !! id vm)))
    eqn:Hearly.
  - pose proof Hearly as Hcond.
    apply andb_true_iff in Hearly as [Heq _]. apply String.eqb_eq in Heq.
    destruct (extractId_counter _ _ _ _ Hid) as [-> | Hdiff]; [| congruence].
    replace (mkPage (vms page) (refs page) (PROVIDER_COUNTER page)) with page
      by (by destruct page).
    rewrite (render_of_active h _ vm providedId (PROVIDER_COUNTER page) Hh Hact Hid).
    rewrite Hcond. by destruct page.
  - erewrite (render_of_active h _ (mkVm (vid vm) (name vm) providedId false)
               providedId counter).
    + cbn [vms refs id]. rewrite String.eqb_refl, lookup_insert_eq.
      by rewrite bool_decide_eq_true_2 by eauto.
    + cbn [vms]. by rewrite lookup_insert_eq.
    + done.
    + cbn [PROVIDER_COUNTER]. exact (extractId_stable vm _ _ _ false Hid).
Qed.

Lemma render_is_idempotent_witness :
  run_events [Create 7 EmptyString None; Render 7; Render 7] empty_page
  = run_events [Create 7 EmptyString None; Render 7] empty_page.
Proof.
  apply (render_is_idempotent 7%nat (run_events [Create 7 EmptyString None] empty_page)).
  intros vm. unfold run_events, empty_page. simpl. unfold create. simpl.
  rewrite lookup_empty. simpl. rewrite lookup_insert_eq. by intros [= <-].
Defined.

(** X15.  Two instances that have neither vid nor name nor id get
    different generated ids when they render one after the other, and
    each ends up registered under its own. *)
Theorem anonymous_instances_get_distinct_ids (h1 h2 : nat) (page : Page)
  (n1 n2 : option string) :
  h1 <> h2 ->
  vms page !! h1 = Some (mkVm EmptyString n1 EmptyString false) ->
  vms page !! h2 = Some (mkVm EmptyString n2 EmptyString false) ->
  truthy_option n1 = false ->
  truthy_option n2 = false ->
  exists i1 i2,
    i1 <> i2
    /\ (id <$> vms (run_events [Render h1; Render h2] page) !! h1) = Some i1
    /\ (id <$> vms (run_events [Render h1; Render h2] page) !! h2) = Some i2
    /\ refs (run_events [Render h1; Render h2] page) !! i1 = Some h1
    /\ refs (run_events [Render h1; Render h2] page) !! i2 = Some h2.
Proof.
  intros Hne H1 H2 Hn1 Hn2.
  set (i1 := "_vee_" +:+ pretty (S (PROVIDER_COUNTER page))).
  set (i2 := "_vee_" +:+ pretty (S (S (PROVIDER_COUNTER page)))).
  assert (Hdiff : i1 <> i2).
  { intros Heq. apply generated_id_inj in Heq. lia. }
  exists i1, i2. split; [exact Hdiff |].
  unfold run_events. cbn [fold_left step].
  rewrite (render_of_active h1 page _ i1 (S (PROVIDER_COUNTER page)) H1 eq_refl).
  2:{ unfold extractId. cbn [vid name id]. by rewrite Hn1. }
  cbn [id]. change (String.eqb EmptyString i1) with false. cbn [andb negb].
  set (refs1 := <[i1 := h1]> (if bool_decide (refs page !! EmptyString = Some h1)
                              then delete EmptyString (refs page) else refs page)).
  erewrite (render_of_active h2 _ (mkVm EmptyString n2 EmptyString false) i2
              (S (S (PROVIDER_COUNTER page)))).
  2:{ cbn [vms]. by rewrite lookup_insert_ne. }
  2:{ done. }
  2:{ unfold extractId. cbn [vid name id PROVIDER_COUNTER]. by rewrite Hn2. }
  cbn [id]. change (String.eqb EmptyString i2) with false. cbn [andb negb].
  cbv beta iota delta [vms refs vid name].
  rewrite lookup_insert_ne by done. rewrite !lookup_insert_eq.
  rewrite (lookup_insert_ne (M := gmap string) _ _ _ _ (not_eq_sym Hdiff)).
  split; [done |]. split; [done |]. split; [| done].
  assert (Hr1 : refs1 !! i1 = Some h1) by apply lookup_insert_eq.
  destruct (bool_decide (refs1 !! EmptyString = Some h2)); [| done].
  rewrite lookup_delete_ne; [done | discriminate].
Qed.

Lemma anonymous_instances_get_distinct_ids_witness :
  exists i1 i2,
    i1 <> i2
    /\ refs (run_events [Create 1 EmptyString None; Create 2 EmptyString None;
                         Render 1; Render 2] empty_page) !! i1 = Some 1%nat
    /\ refs (run_events [Create 1 EmptyString None; Create 2 EmptyString None;
                         Render 1; Render 2] empty_page) !! i2 = Some 2%nat.
Proof.
  destruct (anonymous_instances_get_distinct_ids 1%nat 2%nat
              (run_events [Create 1 EmptyString None; Create 2 EmptyString None]
                 empty_page)
              None None)
    as (i1 & i2 & Hd & _ & _ & Hr1 & Hr2);
    try reflexivity; try discriminate.
  exists i1, i2. split; [exact Hd |]. split; [exact Hr1 | exact Hr2].
Defined.

End RegistryFacts.

(* ================================================================== *)
(** * Facts about classes and the values lookup of Provider.ts          *)
(* ================================================================== *)

Module ClassesFacts.
Import Classes ObjectFacts.

Section Lookup.

Context {P : Type} (value_of : P -> jsval) (providers : gmap string P).



End Lookup.


(** What a flag contributes to the classes when no class map is
    configured. *)
Lemma class_step_plain (flags : object (option bool)) (acc : object bool) (k f : string) :
  obj_get (class_step None flags acc k) f
  = if String.eqb k f
    then match obj_get flags f with
         | Some (Some value) =>
             if (String.eqb f "valid" || String.eqb f "invalid") && negb (validated flags)
             then obj_get acc f else Some value
         | _ => obj_get acc f
         end
    else obj_get acc f.
Proof.
  unfold class_step, class_for. simpl.
  destruct (String.eqb_spec k f) as [-> | Hne].
  - destruct (obj_get flags f) as [[value |] |]; try done.
    destruct ((String.eqb f "valid" || String.eqb f "invalid") && negb (validated flags));
      [done | apply obj_get_set_eq].
  - destruct (obj_get flags k) as [[value |] |]; try done.
    destruct ((String.eqb k "valid" || String.eqb k "invalid") && negb (validated flags));
      [done | by apply obj_get_set_ne].
Qed.

(** X17.  With no class map configured the classes are the flags under
    their own names: a flag with a boolean value gives the class of its
    name that value, except that valid and invalid give no class as long
    as the field is not validated; a flag that is null or undefined, and
    a name that is no flag, give no class. *)
Theorem classes_mirror_flags (flags : object (option bool)) (f : string) :
  obj_get (computeClassObj None flags) f
  = match obj_get flags f with
    | Some (Some value) =>
        if (String.eqb f "valid" || String.eqb f "invalid") && negb (validated flags)
        then None else Some value
    | _ => None
    end.
Proof.
  unfold computeClassObj.
  assert (Hfold : forall ks acc,
            obj_get (fold_left (class_step None flags) ks acc) f
            = if in_dec String.string_dec f ks
              then match obj_get flags f with
                   | Some (Some value) =>
                       if (String.eqb f "valid" || String.eqb f "invalid")
                          && negb (validated flags)
                       then obj_get acc f else Some value
                   | _ => obj_get acc f
                   end
              else obj_get acc f).
  { induction ks as [| k ks IH]; intros acc; [done |].
    cbn [fold_left]. rewrite IH, !class_step_plain.
    destruct (String.eqb_spec k f) as [-> | Hne].
    - destruct (in_dec String.string_dec f (f :: ks)) as [_ | Hn]; [| destruct Hn; by left].
      destruct (in_dec String.string_dec f ks);
        destruct (obj_get flags f) as [[value |] |]; try done;
        by destruct ((String.eqb f "valid" || String.eqb f "invalid")
                     && negb (validated flags)).
    - destruct (in_dec String.string_dec f ks) as [Hin | Hnin],
               (in_dec String.string_dec f (k :: ks)) as [Hin' | Hnin']; try done.
      + destruct Hnin'. by right.
      + destruct Hin' as [? | ?]; [done | done]. }
  rewrite Hfold. simpl.
  destruct (in_dec String.string_dec f (Object_keys flags)) as [Hin | Hnin].
  - by destruct (obj_get flags f) as [[value |] |].
  - apply obj_get_None_iff in Hnin. by rewrite Hnin.
Qed.

End ClassesFacts.

(* ================================================================== *)
(** * More facts about the providers and useField                       *)
(* ================================================================== *)

Module FlagTactics.

(** Reading a flag after a chain of assignments. *)
Ltac read_flags :=
  unfold Flags.flag, Flags.setFlags; cbn [fold_left];
  repeat first [ rewrite lookup_insert_eq | rewrite lookup_insert_ne by done ].

End FlagTactics.

Module ProviderTsMore.
Import Flags ProviderTs FlagConditions FlagTactics.

Section Runs.

Context (strict_equal : jsval -> jsval -> bool).

Lemma applyResult_judged (r : Applied) (c : Provider) :
  judged (flags (applyResult strict_equal r c)).
Proof.
  unfold judged, applyResult, set_flags. cbn [flags with_flags]. read_flags.
  simpl. by destruct (no_errors (applied_errors r)).
Qed.

Lemma syncValue_flags (v : jsval) (c : Provider) (k : string) :
  k <> "changed" -> flag (flags (syncValue strict_equal v c)) k = flag (flags c) k.
Proof.
  intros Hk. unfold syncValue. cbn [flags with_flags]. unfold flag.
  by rewrite lookup_insert_ne.
Qed.

Lemma flag_insert_ne (f : Flags) (k' k : string) (b : bool) :
  k <> k' -> flag (<[k' := b]> f) k = flag f k.
Proof. intros Hk. unfold flag. by rewrite lookup_insert_ne. Qed.

Lemma judged_transfer (f g : Flags) :
  (forall k, In k ["valid"; "invalid"; "passed"; "failed"; "validated"] ->
             flag g k = flag f k) ->
  judged f -> judged g.
Proof.
  intros Heq (H1 & H2 & H3). unfold judged.
  rewrite !Heq by (simpl; tauto). done.
Qed.

Lemma validateSilent_finish_judged (result : RunResult) (c : Provider) :
  judged (flags c) -> judged (flags (validateSilent_finish result c)).
Proof.
  intros (H1 & H2 & H3). unfold judged, validateSilent_finish, set_flags.
  cbn [flags with_flags]. read_flags. simpl. fold (flag (flags c) "validated").
  fold (flag (flags c) "passed"). fold (flag (flags c) "failed").
  split; [done |]. split; [done |]. by destruct (run_valid result).
Qed.

Lemma step_judged (w : World) (ev : Event) :
  judged (flags (field w)) -> judged (flags (field (step strict_equal w ev))).
Proof.
  intros Hj. destruct ev as [v | | args | | errs | p result]; cbn [step field].
  - eapply judged_transfer; [| exact Hj]. intros k Hk. apply syncValue_flags.
    simpl in Hk. intros ->. decompose [or] Hk; discriminate || done.
  - unfold reset, validateSilent_start. cbn [field].
    unfold judged, set_flags. cbn [flags with_flags]. simpl obj_set. read_flags. done.
  - unfold validate_start, validateSilent_start. cbn [field].
    eapply judged_transfer; [| exact Hj]. intros k Hk.
    assert (Hnp : k <> "pending")
      by (simpl in Hk; intros ->; decompose [or] Hk; discriminate || done).
    assert (Hnc : k <> "changed")
      by (simpl in Hk; intros ->; decompose [or] Hk; discriminate || done).
    unfold set_flags, setFlags. cbn [field flags with_flags fold_left].
    rewrite (flag_insert_ne _ _ _ _ Hnp).
    destruct args as [| a args]; [done |]. cbn [field]. by apply syncValue_flags.
  - unfold validateSilent_start. cbn [field].
    eapply judged_transfer; [| exact Hj]. intros k Hk.
    unfold set_flags, setFlags. cbn [field flags with_flags fold_left].
    apply flag_insert_ne.
    simpl in Hk. intros ->. decompose [or] Hk; discriminate || done.
  - apply applyResult_judged.
  - unfold resolve_run. destruct (runs w !! p) as [[] |]; cbn [field].
    + apply applyResult_judged.
    + by apply validateSilent_finish_judged.
    + done.
Qed.

(** X18.  In Provider.ts, whatever methods are called and in whatever
    order the validation runs resolve, the field is validated exactly
    when it is passed or failed, never passed and failed at once, and
    never valid and invalid at once. *)
Theorem provider_flags_stay_judged (evs : list Event) (required : bool) :
  judged (flags (field (run_events strict_equal evs (a_new_world required)))).
Proof.
  unfold run_events.
  assert (H0 : judged (flags (field (a_new_world required)))).
  { unfold judged, a_new_world, a_new_provider. cbn [field flags].
    unfold createFlags. read_flags. done. }
  revert H0. generalize (a_new_world required) as w.
  induction evs as [| ev evs IH]; intros w Hw; [done |].
  simpl. apply IH. by apply step_judged.
Qed.

(** X19.  When the validation started by [validate()] resolves, the
    provider shows that run's errors, is validated and no longer
    pending, is valid exactly when there is no error, has passed and
    failed in step with valid, invalid and validated, and the run is no
    longer awaited. *)
Theorem completed_validate_is_applied (p : nat) (result : RunResult) (w : World) :
  runs w !! p = Some ByValidate ->
  errors (field (resolve_run strict_equal p result w)) = run_errors result
  /\ derived_ok (flags (field (resolve_run strict_equal p result w)))
  /\ flag (flags (field (resolve_run strict_equal p result w))) "validated" = true
  /\ flag (flags (field (resolve_run strict_equal p result w))) "valid"
     = no_errors (run_errors result)
  /\ flag (flags (field (resolve_run strict_equal p result w))) "pending" = false
  /\ runs (resolve_run strict_equal p result w) !! p = None.
Proof.
  intros Hrun. unfold resolve_run. rewrite Hrun. cbn [field runs].
  split; [done |]. split; [apply ProviderTsFacts.applyResult_derived_ok |].
  unfold applyResult, validateSilent_finish, set_flags. cbn [flags with_flags].
  repeat split; try (read_flags; done). apply lookup_delete_eq.
Qed.

End Runs.

Lemma completed_validate_is_applied_witness :
  errors (field (run_events Examples.primitive_equal
                   [CallValidate [VStr "a"];
                    Resolve 0 (mkRunResult false ["too short"] None)]
                   (a_new_world false)))
  = ["too short"].
Proof.
  exact (proj1 (completed_validate_is_applied Examples.primitive_equal 0%nat
                  (mkRunResult false ["too short"] None)
                  (run_events Examples.primitive_equal [CallValidate [VStr "a"]]
                     (a_new_world false))
                  eq_refl)).
Defined.

End ProviderTsMore.

Module ProviderJsMore.
Import Flags ProviderJs FlagConditions FlagTactics.

Ltac paired_after :=
  unfold paired in *; unfold flag, set_flags, with_flags, setFlags, createFlags in *;
  cbn [flags fold_left] in *;
  repeat first [ rewrite lookup_insert_eq | rewrite lookup_insert_ne by done ];
  cbn [default].

Section Events.

Context (strict_equal : jsval -> jsval -> bool).

Lemma pending_paired (b : bool) (c : Provider) :
  paired (flags c) -> paired (flags (set_flags [("pending", b)] c)).
Proof. intros H. paired_after. exact H. Qed.

Lemma syncValue_paired (e : jsval) (c : Provider) :
  paired (flags c) -> paired (flags (syncValue strict_equal e c)).
Proof. intros H. unfold syncValue. paired_after. exact H. Qed.

Lemma applyResult_paired (result : Result) (c : Provider) :
  paired (flags c) -> paired (flags (applyResult strict_equal result c)).
Proof.
  intros (H1 & H2 & _). unfold applyResult. paired_after.
  split; [done |]. split; [done |]. by destruct (no_errors (errors result)).
Qed.

Lemma silentHandler_paired (result : Result) (c : Provider) :
  paired (flags c) -> paired (flags (silentHandler result c)).
Proof.
  intros (H1 & H2 & _). unfold silentHandler. paired_after.
  split; [done |]. split; [done |]. by destruct (valid result).
Qed.

Lemma reset_paired (c : Provider) : paired (flags (reset c)).
Proof. unfold reset. paired_after. done. Qed.

Lemma onInput_paired (e : jsval) (c : Provider) :
  paired (flags c) -> paired (flags (onInput strict_equal e c)).
Proof. intros (_ & H2 & H3). unfold onInput, syncValue. paired_after. done. Qed.

Lemma onBlur_paired (c : Provider) : paired (flags c) -> paired (flags (onBlur c)).
Proof. intros (H1 & _ & H3). unfold onBlur. paired_after. done. Qed.

Lemma run_callback_paired (result : Result) (c : Provider) (cb : Callback) :
  paired (flags c) -> paired (flags (run_callback strict_equal result c cb)).
Proof.
  intros H. destruct cb as [| | p |]; cbn [run_callback].
  - by apply pending_paired.
  - by apply applyResult_paired.
  - destruct (_waiting c) as [q |]; [| done]. destruct (Nat.eqb p q); [| done].
    change (flags (with_waiting (applyResult strict_equal result c) None))
      with (flags (applyResult strict_equal result c)).
    by apply applyResult_paired.
  - by apply silentHandler_paired.
Qed.

Lemma callbacks_paired (result : Result) (cbs : list Callback) :
  forall c, paired (flags c) ->
            paired (flags (fold_left (run_callback strict_equal result) cbs c)).
Proof.
  induction cbs as [| cb cbs IH]; intros c H; [done |].
  simpl. apply IH. by apply run_callback_paired.
Qed.

Lemma step_paired (w : World) (ev : Event) :
  paired (flags (field w)) -> paired (flags (field (step strict_equal w ev))).
Proof.
  intros H. destruct ev as [e | | | arg | | | v | p result]; cbn [step field].
  - by apply onInput_paired.
  - by apply onBlur_paired.
  - unfold onValidate, validate, validateSilent, and_then. cbn [field flags].
    by apply pending_paired.
  - unfold validate, validateSilent, and_then.
    destruct arg as [a |]; [destruct (truthy a) |]; cbn [fst field];
      apply pending_paired; [by apply syncValue_paired | done | done].
  - unfold validateSilent. cbn [fst field]. by apply pending_paired.
  - apply reset_paired.
  - unfold onRenderUpdate.
    destruct (negb _); [done |].
    unfold validateSilent, and_then. cbn [field]. by apply pending_paired.
  - unfold resolve_run. destruct (runs w !! p) as [cbs |]; [| done].
    cbn [field]. by apply callbacks_paired.
Qed.

(** X20.  In provider.js, whatever the events and the order in which
    validation runs resolve, the provider is pristine exactly when it is
    not dirty, untouched exactly when it is not touched, and never valid
    and invalid at once. *)
Theorem provider_flags_stay_paired (evs : list Event) (immediate_prop : bool) :
  paired (flags (field (run_events strict_equal evs (a_new_world immediate_prop)))).
Proof.
  unfold run_events.
  assert (H0 : paired (flags (field (a_new_world immediate_prop)))).
  { unfold a_new_world, a_new_provider. cbn [field]. paired_after. done. }
  revert H0. generalize (a_new_world immediate_prop) as w.
  induction evs as [| ev evs IH]; intros w Hw; [done |].
  simpl. apply IH. by apply step_paired.
Qed.

End Events.

End ProviderJsMore.

Module UseFieldMore.
Import Flags UseField FlagConditions FlagTactics.

Ltac meta_after :=
  unfold paired, decided, flag, with_meta in *; cbn [meta] in *;
  repeat first [ rewrite lookup_insert_eq | rewrite lookup_insert_ne by done ];
  cbn [default].

Lemma useMeta_flags : paired useMeta /\ judged useMeta /\ derived_ok useMeta.
Proof. unfold paired, judged, derived_ok. by vm_compute. Qed.

Lemma derive_flag (m : Flags) (k : string) :
  k <> "passed" -> k <> "failed" -> flag (derive m) k = flag m k.
Proof.
  intros H1 H2. unfold derive, flag. by rewrite !lookup_insert_ne.
Qed.

Lemma derive_flags (m : Flags) :
  paired m -> decided m ->
  paired (derive m) /\ judged (derive m) /\ derived_ok (derive m).
Proof.
  intros (H1 & H2 & H3) H4.
  assert (Hd : derived_ok (derive m)) by apply UseFieldFacts.derive_derived_ok.
  destruct Hd as [Hp Hf].
  unfold paired, judged. rewrite Hp, Hf. rewrite !derive_flag by done.
  unfold decided in H4. repeat split; try done.
  - destruct (flag m "validated"); [| by rewrite !andb_false_r].
    rewrite !andb_true_r. symmetry. by apply H4.
  - destruct (flag m "valid"), (flag m "invalid"), (flag m "validated"); done.
Qed.

Lemma judged_decided (m : Flags) : judged m -> derived_ok m -> decided m.
Proof.
  intros (H1 & _ & _) [Hp Hf] Hv. rewrite Hp, Hf in H1.
  destruct (flag m "valid"), (flag m "invalid"); try done.
  rewrite Hv in H1. done.
Qed.

Section Events.

Context (strict_equal : jsval -> jsval -> bool).

Lemma handleBlur_flags (f : Field) :
  paired (meta f) -> decided (meta f) ->
  paired (meta (handleBlur f)) /\ decided (meta (handleBlur f)).
Proof. intros (H1 & H2 & H3) H4. unfold handleBlur. meta_after. done. Qed.

Lemma handleInput_flags (f : Field) :
  paired (meta f) -> decided (meta f) ->
  paired (meta (handleInput f)) /\ decided (meta (handleInput f)).
Proof. intros (H1 & H2 & H3) H4. unfold handleInput. meta_after. done. Qed.

Lemma patch_flags (result : Result) (f : Field) :
  paired (meta f) ->
  paired (meta (patch strict_equal result f)) /\ decided (meta (patch strict_equal result f)).
Proof.
  intros (H1 & H2 & H3). unfold patch. meta_after.
  by destruct (no_errors (Flags.errors result)).
Qed.

Lemma reset_flags (f : Field) :
  paired (meta (reset f)) /\ decided (meta (reset f)).
Proof.
  unfold reset, resetFlags, initialMeta. cbn [fold_left String.eqb Ascii.eqb Bool.eqb orb].
  meta_after. done.
Qed.

Lemma pending_flags (b : bool) (f : Field) :
  paired (meta f) -> decided (meta f) ->
  paired (meta (with_meta f (<["pending" := b]> (meta f))))
  /\ decided (meta (with_meta f (<["pending" := b]> (meta f)))).
Proof. intros H1 H4. meta_after. done. Qed.

Lemma runValidation_finish_flags (by_schema : bool) (result : Result) (f : Field) :
  paired (meta f) -> decided (meta f) ->
  paired (meta (runValidation_finish by_schema result f))
  /\ decided (meta (runValidation_finish by_schema result f)).
Proof.
  intros H1 H4. unfold runValidation_finish. destruct by_schema.
  - by apply pending_flags.
  - destruct H1 as (H1 & H2 & H3). meta_after.
    by destruct (no_errors (Flags.errors result)).
Qed.

Lemma continue_flags (origin : Origin) (result : Result) (f : Field) :
  paired (meta f) -> decided (meta f) ->
  paired (meta (continue strict_equal origin result f))
  /\ decided (meta (continue strict_equal origin result f)).
Proof.
  intros H1 H4. destruct origin as [| []]; cbn [continue];
    [by apply patch_flags | by apply patch_flags | done].
Qed.

Lemma derive_keeps (m : Flags) :
  paired m -> decided m -> paired (derive m) /\ decided (derive m).
Proof.
  intros (H1 & H2 & H3) H4. unfold paired, decided.
  rewrite !derive_flag by done. done.
Qed.

Lemma step_flags (w : World) (ev : Event) :
  paired (meta (field w)) /\ decided (meta (field w)) ->
  paired (meta (field (step strict_equal w ev)))
  /\ decided (meta (field (step strict_equal w ev))).
Proof.
  intros [H1 H4]. destruct ev as [| | immediate | | | p result |]; cbn [step].
  - by apply handleBlur_flags.
  - by apply handleInput_flags.
  - by apply pending_flags.
  - by apply pending_flags.
  - apply reset_flags.
  - destruct (runs w !! p) as [origin |]; [| done]. cbn [field].
    destruct (runValidation_finish_flags (validates_by_schema w) result (field w) H1 H4).
    by apply continue_flags.
  - unfold flush. cbn [field meta with_meta]. by apply derive_keeps.
Qed.

Lemma run_flags (evs : list Event) (initial : jsval) (by_schema : bool) :
  paired (meta (field (run_events strict_equal evs (a_new_world initial by_schema))))
  /\ decided (meta (field (run_events strict_equal evs (a_new_world initial by_schema)))).
Proof.
  unfold run_events.
  assert (H0 : paired (meta (field (a_new_world initial by_schema)))
               /\ decided (meta (field (a_new_world initial by_schema)))).
  { destruct useMeta_flags as (H1 & H2 & H3). split; [exact H1 |].
    by apply judged_decided. }
  revert H0. generalize (a_new_world initial by_schema) as w.
  induction evs as [| ev evs IH]; intros w Hw; [done |].
  simpl. apply IH. by apply step_flags.
Qed.

(** X21.  In useField.ts, after every event (blur, input, mount,
    validate, reset, a validation run resolving, the effect of [useMeta]
    running, in any order) the field is pristine exactly when not dirty,
    untouched exactly when not touched, and never valid and invalid at
    once.  Whenever the effect has run, the field is also validated
    exactly when passed or failed, never passed and failed at once, and
    passed and failed are in step with valid, invalid and validated. *)
Theorem field_flags_stay_consistent (evs : list Event) (initial : jsval) (by_schema : bool) :
  paired (meta (field (run_events strict_equal evs (a_new_world initial by_schema))))
  /\ judged (meta (field (run_events strict_equal (evs ++ [EffectRuns])
                            (a_new_world initial by_schema))))
  /\ derived_ok (meta (field (run_events strict_equal (evs ++ [EffectRuns])
                                (a_new_world initial by_schema)))).
Proof.
  destruct (run_flags evs initial by_schema) as [H1 H4].
  split; [exact H1 |].
  unfold run_events in *. rewrite fold_left_app.
  cbn [fold_left step flush field meta with_meta].
  by apply derive_flags.
Qed.

(** Until the effect runs, the derived flags are what they were: after a
    failed validation and a reset the field is still failed, and no
    longer validated. *)
Lemma reset_leaves_failed_to_the_effect :
  flag (meta (field (run_events Examples.primitive_equal
                       [Validate; Resolve 0 (mkResult ["too short"] false); EffectRuns; Reset]
                       (a_new_world (VStr "a") false))))
    "failed" = true
  /\ flag (meta (field (run_events Examples.primitive_equal
                          [Validate; Resolve 0 (mkResult ["too short"] false); EffectRuns;
                           Reset]
                          (a_new_world (VStr "a") false))))
       "validated" = false.
Proof. split; vm_compute; reflexivity. Qed.

Ltac other_key Hk :=
  repeat rewrite lookup_insert_ne by (intros <-; apply Hk; simpl; tauto).

Lemma step_only_meta_keys (w : World) (ev : Event) :
  only_meta_keys (meta (field w)) ->
  only_meta_keys (meta (field (step strict_equal w ev))).
Proof.
  intros H k Hk. specialize (H k Hk).
  destruct ev as [| | immediate | | | p result |]; cbn [step].
  - unfold on_field, handleBlur, with_meta. cbn [field meta]. by other_key Hk.
  - unfold on_field, handleInput, with_meta. cbn [field meta]. by other_key Hk.
  - unfold runValidation_start, with_meta. cbn [field meta]. by other_key Hk.
  - unfold runValidation_start, with_meta. cbn [field meta]. by other_key Hk.
  - unfold on_field, reset, resetFlags, initialMeta.
    cbn [field meta fold_left String.eqb Ascii.eqb Bool.eqb orb]. by other_key Hk.
  - destruct (runs w !! p) as [origin |]; [| done]. cbn [field].
    assert (Hfin : meta (runValidation_finish (validates_by_schema w) result (field w)) !! k
                   = None).
    { unfold runValidation_finish, with_meta.
      destruct (validates_by_schema w); cbn [meta]; by other_key Hk. }
    destruct origin as [| []]; cbn [continue]; try done;
      unfold patch; cbn [meta]; by other_key Hk.
  - unfold flush, with_meta, derive. cbn [field meta]. by other_key Hk.
Qed.

Lemma only_meta_keys_reachable (evs : list Event) (initial : jsval) (by_schema : bool) :
  only_meta_keys (meta (field (run_events strict_equal evs (a_new_world initial by_schema)))).
Proof.
  unfold run_events.
  assert (H0 : only_meta_keys (meta (field (a_new_world initial by_schema)))).
  { intros k Hk. unfold a_new_world, useMeta, derive, setFlags, initialMeta.
    cbn [field meta fold_left]. other_key Hk. apply lookup_empty. }
  revert H0. generalize (a_new_world initial by_schema) as w.
  induction evs as [| ev evs IH]; intros w Hw; [done |].
  simpl. apply IH. by apply step_only_meta_keys.
Qed.

Lemma reset_meta (m : Flags) : only_meta_keys m -> derive (resetFlags m) = useMeta.
Proof.
  intros H. apply map_eq. intros k.
  destruct (in_dec string_dec k (Object_keys initialMeta)) as [Hin | Hk].
  - unfold resetFlags, useMeta, derive, setFlags, initialMeta, flag.
    cbn [fold_left String.eqb Ascii.eqb Bool.eqb orb].
    simpl in Hin. decompose [or] Hin; try done; subst k;
      repeat first [ rewrite lookup_insert_eq | rewrite lookup_insert_ne by done ];
      reflexivity.
  - specialize (H k Hk).
    unfold resetFlags, useMeta, derive, setFlags, initialMeta.
    cbn [fold_left String.eqb Ascii.eqb Bool.eqb orb].
    other_key Hk. by rewrite H, lookup_empty.
Qed.

Lemma derive_lookup (m : Flags) (k : string) :
  k <> "passed" -> k <> "failed" -> derive m !! k = m !! k.
Proof. intros H1 H2. unfold derive. by rewrite !lookup_insert_ne. Qed.

Lemma resetFlags_derived (m : Flags) (k : string) :
  k = "passed" \/ k = "failed" -> resetFlags m !! k = m !! k.
Proof.
  intros Hk. unfold resetFlags, initialMeta.
  cbn [fold_left String.eqb Ascii.eqb Bool.eqb orb].
  destruct Hk as [-> | ->]; by rewrite !lookup_insert_ne.
Qed.

(** X22.  In useField.ts, [reset] empties the errors and puts every flag
    but passed and failed back to what a new field has, whatever
    happened before; passed and failed it leaves as they are, and they
    are a new field's once the effect of [useMeta] has run: then all the
    flags are.  [reset] leaves the value as it is and does not cancel
    the validation runs in flight. *)
Theorem reset_restores_new_field (evs : list Event) (initial : jsval) (by_schema : bool) :
  errors (field (run_events strict_equal (evs ++ [Reset]) (a_new_world initial by_schema))) = []
  /\ (forall k, k <> "passed" -> k <> "failed" ->
        meta (field (run_events strict_equal (evs ++ [Reset])
                       (a_new_world initial by_schema))) !! k
        = meta (field (a_new_world initial by_schema)) !! k)
  /\ (forall k, k = "passed" \/ k = "failed" ->
        meta (field (run_events strict_equal (evs ++ [Reset])
                       (a_new_world initial by_schema))) !! k
        = meta (field (run_events strict_equal evs (a_new_world initial by_schema))) !! k)
  /\ meta (field (run_events strict_equal (evs ++ [Reset; EffectRuns])
                    (a_new_world initial by_schema)))
     = meta (field (a_new_world initial by_schema))
  /\ value (field (run_events strict_equal (evs ++ [Reset]) (a_new_world initial by_schema)))
     = value (field (run_events strict_equal evs (a_new_world initial by_schema)))
  /\ runs (run_events strict_equal (evs ++ [Reset]) (a_new_world initial by_schema))
     = runs (run_events strict_equal evs (a_new_world initial by_schema)).
Proof.
  pose proof (only_meta_keys_reachable evs initial by_schema) as Hkeys.
  unfold run_events in *. rewrite !fold_left_app. cbn [fold_left].
  set (w := fold_left (step strict_equal) evs (a_new_world initial by_schema)) in *.
  cbn [step on_field reset flush field meta errors value runs with_meta].
  split; [done |]. split; [| split; [| split; [| done]]].
  - intros k H1 H2. rewrite <- (derive_lookup _ k H1 H2).
    by rewrite (reset_meta _ Hkeys).
  - intros k Hk. by apply resetFlags_derived.
  - by apply reset_meta.
Qed.

Lemma quiet_step (w : World) (ev : Event) :
  quiet ev = true ->
  errors (field w) = []
  /\ flag (meta (field w)) "validated" = false
  /\ flag (meta (field w)) "passed" = false
  /\ flag (meta (field w)) "failed" = false
  /\ (forall p origin, runs w !! p = Some origin -> origin = OnMounted false) ->
  errors (field (step strict_equal w ev)) = []
  /\ flag (meta (field (step strict_equal w ev))) "validated" = false
  /\ flag (meta (field (step strict_equal w ev))) "passed" = false
  /\ flag (meta (field (step strict_equal w ev))) "failed" = false
  /\ (forall p origin, runs (step strict_equal w ev) !! p = Some origin ->
                       origin = OnMounted false).
Proof.
  intros Hq (He & Hv & Hp & Hf & Hr).
  destruct ev as [| | immediate | | | p result |]; cbn [step].
  - unfold on_field, handleBlur, with_meta. cbn [field meta errors runs].
    split; [done |]. repeat (split; [by meta_after |]). done.
  - unfold on_field, handleInput, with_meta. cbn [field meta errors runs].
    split; [done |]. repeat (split; [by meta_after |]). done.
  - unfold runValidation_start, with_meta. cbn [field meta errors runs].
    split; [done |]. repeat (split; [by meta_after |]).
    intros q origin. destruct (decide (q = fresh w)) as [-> | Hne].
    + rewrite lookup_insert_eq. intros [= <-]. simpl in Hq.
      by destruct immediate.
    + rewrite lookup_insert_ne by done. apply Hr.
  - done.
  - unfold on_field, reset, resetFlags, initialMeta.
    cbn [field meta errors runs fold_left String.eqb Ascii.eqb Bool.eqb orb].
    split; [done |]. repeat (split; [by meta_after |]). done.
  - destruct (runs w !! p) as [origin |] eqn:Hrun; [| done].
    rewrite (Hr p origin Hrun). cbn [field errors runs continue].
    unfold runValidation_finish, with_meta.
    destruct (validates_by_schema w); cbn [meta errors];
      (split; [done |]; repeat (split; [by meta_after |]));
      intros q origin' [_ Hq']%lookup_delete_Some; by apply (Hr q).
  - unfold flush, with_meta. cbn [field meta errors runs].
    destruct (UseFieldFacts.derive_derived_ok (meta (field w))) as [Gp Gf].
    rewrite Gp, Gf, !derive_flag by done. rewrite Hv, !andb_false_r. done.
Qed.

(** X23.  In useField.ts, as long as [validate] is not called and the
    field is not mounted with [immediate], the field shows no errors and
    is neither validated, passed nor failed, whatever the validation runs
    started on mount resolve with. *)
Theorem quiet_field_shows_no_errors (evs : list Event) (initial : jsval) (by_schema : bool) :
  forallb quiet evs = true ->
  errors (field (run_events strict_equal evs (a_new_world initial by_schema))) = []
  /\ flag (meta (field (run_events strict_equal evs (a_new_world initial by_schema))))
       "validated" = false
  /\ flag (meta (field (run_events strict_equal evs (a_new_world initial by_schema))))
       "passed" = false
  /\ flag (meta (field (run_events strict_equal evs (a_new_world initial by_schema))))
       "failed" = false.
Proof.
  intros Hq.
  assert (H : errors (field (run_events strict_equal evs (a_new_world initial by_schema))) = []
              /\ flag (meta (field (run_events strict_equal evs
                                      (a_new_world initial by_schema)))) "validated" = false
              /\ flag (meta (field (run_events strict_equal evs
                                      (a_new_world initial by_schema)))) "passed" = false
              /\ flag (meta (field (run_events strict_equal evs
                                      (a_new_world initial by_schema)))) "failed" = false
              /\ (forall p origin,
                    runs (run_events strict_equal evs (a_new_world initial by_schema)) !! p
                    = Some origin -> origin = OnMounted false)).
  { unfold run_events.
    assert (H0 : errors (field (a_new_world initial by_schema)) = []
                 /\ flag (meta (field (a_new_world initial by_schema))) "validated" = false
                 /\ flag (meta (field (a_new_world initial by_schema))) "passed" = false
                 /\ flag (meta (field (a_new_world initial by_schema))) "failed" = false
                 /\ (forall p origin, runs (a_new_world initial by_schema) !! p = Some origin ->
                                      origin = OnMounted false)).
    { split; [done |]. repeat (split; [by vm_compute |]).
      intros p origin. cbn [a_new_world runs]. by rewrite lookup_empty. }
    revert H0 Hq. generalize (a_new_world initial by_schema) as w.
    induction evs as [| ev evs IH]; intros w Hw Hq; [done |].
    simpl in Hq. apply andb_true_iff in Hq as [Hq1 Hq2].
    simpl. apply IH; [| done]. by apply quiet_step. }
  tauto.
Qed.

End Events.

Lemma quiet_field_shows_no_errors_witness :
  errors (field (run_events Examples.primitive_equal
                   [Mounted false; HandleInput; Resolve 0 (mkResult ["too short"] false);
                    HandleBlur]
                   (a_new_world (VStr "a") false))) = [].
Proof.
  exact (proj1 (quiet_field_shows_no_errors Examples.primitive_equal
                  [Mounted false; HandleInput; Resolve 0 (mkResult ["too short"] false);
                   HandleBlur]
                  (VStr "a") false eq_refl)).
Defined.

End UseFieldMore.
